(** * Cross-Entropy Method (garage/np/algos/cem.py): model and properties

    The development embeds the numeric core of [cem.py]: the two
    stderr-lower-bound estimators, the rollout-evaluation worker and the
    per-iteration distribution update of [CEM.train].

    Conventions of the model.
    - The arithmetic of the code is read twice.  The main model takes a
      float64 value as an exact real number of [R]: it carries the
      statements that hold for every input (shapes, counts, ranking, the
      formulas the code evaluates).  Module [F64] transcribes the same
      lines with binary64 floats and evaluates: it shows what rounding,
      overflow and an input nan do to the code, where the exact reading
      would say otherwise.
    - In the main model a value that numpy may deliver as [nan] has type
      [option R], [None] standing for [nan]: the fill value of
      [zip_longest], the mean of an empty array, a variance with no degree
      of freedom left.
    - A one-dimensional array is a list; a two-dimensional array is the
      list of its rows.
    - A Python exception is a constructor of [exn], and code that may raise
      returns a [result]. *)

From Stdlib Require Import Floats.
From Stdlib Require Import String Reals Lra Lia ZArith List Permutation Sorted.
Import ListNotations.

Open Scope R_scope.

(** ** Exceptions *)

Inductive exn : Set :=
| NotImplementedError
| IndexError
| UnboundLocalError
| ZeroDivisionError
| ValueError.

Inductive result (A : Type) : Type :=
| Ok (a : A)
| Raise (e : exn).

Arguments Ok {A} a.
Arguments Raise {A} e.

Definition bind {A B : Type} (m : result A) (k : A -> result B) : result B :=
  match m with
  | Ok a => k a
  | Raise e => Raise e
  end.

Notation "x <- m ;; k" := (bind m (fun x => k))
  (at level 61, m at next level, right associativity).

(** ** numpy reductions *)

Module Np.

(** [np.sum] / Python [sum]: a left-to-right accumulation from 0. *)
Definition sum (x : list R) : R := fold_left Rplus x 0.

(** [arr.sum() / N], the quotient numpy forms for a non-empty array. *)
Definition mean_of (x : list R) : R := sum x / INR (length x).

(** [np.mean]: [nan] on an empty array. *)
Definition mean (x : list R) : option R :=
  match x with
  | [] => None
  | _ :: _ => Some (mean_of x)
  end.

Definition square (v : R) : R := v * v.

(** The quotient of [np.var]: squared deviations from the mean, summed and
    divided by [rcount = max(N - ddof, 0)]. *)
Definition var_of (ddof : nat) (x : list R) : R :=
  sum (map (fun v => square (v - mean_of x)) x) / INR (length x - ddof).

Definition std_of (ddof : nat) (x : list R) : R := sqrt (var_of ddof x).

(** [np.std(x, ddof=ddof)]: not a number when no degree of freedom is
    left. *)
Definition std (ddof : nat) (x : list R) : option R :=
  match (length x - ddof)%nat with
  | O => None
  | S _ => Some (std_of ddof x)
  end.

(** [np.isnan] summed over a padded column. *)
Definition count_nan (c : list (option R)) : nat :=
  length (filter (fun v => match v with None => true | Some _ => false end) c).

(** The entries of a padded column that are numbers, in order. *)
Definition drop_nan (c : list (option R)) : list R :=
  flat_map (fun v => match v with None => [] | Some r => [r] end) c.

(** [np.nanmean] and [np.nanstd]: the reductions over the non-nan
    entries. *)
Definition nanmean (c : list (option R)) : option R := mean (drop_nan c).
Definition nanstd (ddof : nat) (c : list (option R)) : option R :=
  std ddof (drop_nan c).

End Np.

(** [itertools.zip_longest] over the samples of [x] with [fillvalue=nan]: one
    tuple per index below the longest length, exhausted sequences padded
    with the fill value. *)
Definition max_len (x : list (list R)) : nat :=
  fold_right (fun s m => Nat.max (length s) m) 0%nat x.

Definition zip_longest (x : list (list R)) : list (list (option R)) :=
  map (fun t => map (fun s => nth_error s t) x) (seq 0 (max_len x)).

(** ** Trajectory statistics estimators *)

Definition ddof_for (n : nat) : nat := if (1 <? n)%nat then 1%nat else 0%nat.

Definition lift2 (f : R -> R -> R) (a b : option R) : option R :=
  match a, b with
  | Some u, Some v => Some (f u v)
  | _, _ => None
  end.

Definition _get_stderr_lb (x : list R) : option R :=
  let mu := Np.mean x in
  let stderr :=
    lift2 Rdiv (Np.std (ddof_for (length x)) x) (Some (sqrt (INR (length x)))) in
  lift2 Rminus mu stderr.

(** Elementwise arithmetic of two arrays of one length. *)
Fixpoint map2 {A B C : Type} (f : A -> B -> C) (a : list A) (b : list B) : list C :=
  match a, b with
  | u :: a', v :: b' => f u v :: map2 f a' b'
  | _, _ => []
  end.

(** [n = len(temp_list) - np.sum(np.isnan(temp_list))]. *)
Definition col_n (c : list (option R)) : nat := (length c - Np.count_nan c)%nat.

Definition _get_stderr_lb_varyinglens (x : list (list R)) : list (option R) :=
  let cols := zip_longest x in
  let mus := map Np.nanmean cols in
  let stds := map (fun c => Np.nanstd (ddof_for (col_n c)) c) cols in
  let ns := map col_n cols in
  map2 (lift2 Rminus) mus
       (map2 (lift2 Rdiv) stds (map (fun n => Some (sqrt (INR n))) ns)).

(** ** The estimators as the specification words them *)

Module Spec.

Definition total (x : list R) : R := fold_right Rplus 0 x.

Definition mean (x : list R) : R := total x / INR (length x).

(** Sum of squared deviations from the mean. *)
Definition sq_dev (x : list R) : R :=
  total (map (fun v => (v - mean x) ^ 2) x).

(** Bessel-corrected (one degree of freedom removed) standard deviation. *)
Definition std_sample (x : list R) : R :=
  sqrt (sq_dev x / (INR (length x) - 1)).

(** Population standard deviation. *)
Definition std_population (x : list R) : R :=
  sqrt (sq_dev x / INR (length x)).

(** Standard error: sample std for more than one value, population std for
    one, over the root of the count. *)
Definition stderr (x : list R) : R :=
  (if (1 <? length x)%nat then std_sample x else std_population x)
  / sqrt (INR (length x)).

Definition stderr_lb (x : list R) : R := mean x - stderr x.

(** The values at index [t] of the samples that reached a length above
    [t]; the other samples contribute nothing. *)
Definition reaching (t : nat) (x : list (list R)) : list R :=
  map (fun s => nth t s 0) (filter (fun s => (t <? length s)%nat) x).

(** The number of samples longer than [t]. *)
Definition n_at (t : nat) (x : list (list R)) : nat :=
  length (filter (fun s => (t <? length s)%nat) x).

End Spec.

(** ** Rollout evaluator *)

(** Modelled from the spec: [garage.misc.special.discount_cumsum] is imported
    by [cem.py] but its body is not among the sources.  The specification
    gives it as the reverse cumulative sum with discount factor, computed
    back to front: the last return is the last reward, and every earlier
    return is the reward plus the discounted next return. *)
Fixpoint discount_cumsum (rewards : list R) (discount : R) : list R :=
  match rewards with
  | [] => []
  | r :: rest =>
      match discount_cumsum rest discount with
      | [] => [r]
      | (next :: _) as tl => (r + discount * next) :: tl
      end
  end.

Module Path.
(** The entries of a rollout dictionary that [cem.py] reads or writes. *)
Record t : Type := mk
  { rewards : list R;
    returns : list R;
    undiscounted_return : R }.
End Path.

Module ResultPath.
Record t : Type := mk
  { full_paths : list Path.t;
    undiscounted_return : option R;
    returns : list (option R) }.
End ResultPath.

Module Args.
Record t : Type := mk
  { cur_mean : list R;
    sample_std : list R;
    max_path_length : nat;
    discount : R;
    criterion : string;
    n_evals : nat }.
End Args.

(** numpy broadcasting of a binary operation over one-dimensional arrays:
    equal shapes combine elementwise, a one-element array is stretched, any
    other pair of shapes raises. *)
Definition broadcast (f : R -> R -> R) (a b : list R) : result (list R) :=
  if (length a =? length b)%nat then Ok (map2 f a b)
  else match a, b with
       | [u], _ => Ok (map (f u) b)
       | _, [v] => Ok (map (fun u => f u v) a)
       | _, _ => Raise ValueError
       end.

(** The shapes under which the worker's draw
    [standard_normal(k) * sample_std + cur_mean] broadcasts. *)
Definition draw_ok (a : Args.t) : Prop :=
  length (Args.sample_std a) = length (Args.cur_mean a)
  \/ length (Args.sample_std a) = 1%nat
  \/ length (Args.cur_mean a) = 1%nat.

(** The worker's globals: the parameter slot of [g.policy]. *)
Record Globals : Type := { policy_params : list R }.

Section Worker.

(** The standard-normal stream behind [np.random.standard_normal]. *)
Variable noise : nat -> R.

(** The reward sequence of [rollout(g.env, g.policy, max_path_length)], for
    the parameters in the policy slot and the number of the call. *)
Variable rollout : list R -> nat -> nat -> list R.

Definition standard_normal (k : nat) : list R := map noise (seq 0 k).

Definition run_evals (params : list R) (a : Args.t) : list Path.t :=
  map (fun e =>
         let rw := rollout params (Args.max_path_length a) e in
         Path.mk rw (discount_cumsum rw (Args.discount a)) (Np.sum rw))
      (seq 0 (Args.n_evals a)).

(** The increment chosen by the criterion tag; [path] is the loop variable
    left by the last evaluation, unbound when the loop never ran. *)
Definition increment (crit : string) (paths : list Path.t) : result nat :=
  if String.eqb crit "samples" then
    match rev paths with
    | [] => Raise UnboundLocalError
    | path :: _ => Ok (length (Path.rewards path))
    end
  else if String.eqb crit "paths" then Ok 1%nat
  else Raise NotImplementedError.

Definition _worker_rollout_policy (g : Globals) (a : Args.t)
  : result (Globals * ((list R * ResultPath.t) * nat)) :=
  let sample_std := Args.sample_std a in
  let cur_mean := Args.cur_mean a in
  let k := length cur_mean in
  scaled <- broadcast Rmult (standard_normal k) sample_std ;;
  params <- broadcast Rplus scaled cur_mean ;;
  let g' := {| policy_params := params |} in
  let paths := run_evals params a in
  let result_path :=
    ResultPath.mk paths
      (_get_stderr_lb (map Path.undiscounted_return paths))
      (_get_stderr_lb_varyinglens (map Path.returns paths)) in
  inc <- increment (Args.criterion a) paths ;;
  Ok (g', ((params, result_path), inc)).

End Worker.

Section WorkerTrace.

Variable noise : nat -> R.
Variable rollout : list R -> nat -> nat -> list R.

(** The worker with what its call leaves behind, whether it returns or
    raises: the globals after the call and the rollouts it ran, beside the
    outcome.  Until the draw of line 35 has succeeded nothing is touched;
    line 36 then sets the policy slot and lines 38-44 run the rollouts; the
    criterion tag is examined last, at lines 52-57. *)
Definition _worker_rollout_policy_traced (g : Globals) (a : Args.t)
  : (Globals * list Path.t) * result ((list R * ResultPath.t) * nat) :=
  let sample_std := Args.sample_std a in
  let cur_mean := Args.cur_mean a in
  let k := length cur_mean in
  match broadcast Rmult (standard_normal noise k) sample_std with
  | Raise e => ((g, []), Raise e)
  | Ok scaled =>
      match broadcast Rplus scaled cur_mean with
      | Raise e => ((g, []), Raise e)
      | Ok params =>
          let g' := {| policy_params := params |} in
          let paths := run_evals rollout params a in
          let result_path :=
            ResultPath.mk paths
              (_get_stderr_lb (map Path.undiscounted_return paths))
              (_get_stderr_lb_varyinglens (map Path.returns paths)) in
          ((g', paths),
           inc <- increment (Args.criterion a) paths ;;
           Ok ((params, result_path), inc))
      end
  end.

End WorkerTrace.

(** ** Distribution update and iteration driver *)

(** Python's [int] on a float: truncation towards zero. *)
Definition py_int (r : R) : Z :=
  if Rle_dec 0 r then Int_part r else (- Int_part (- r))%Z.

(** [max(1, int(n_samples * best_frac))]. *)
Definition n_best_of (n_samples : Z) (best_frac : R) : Z :=
  Z.max 1 (py_int (IZR n_samples * best_frac)).

(** [max(1.0 - itr / extra_decay_time, 0)]; Python's true division raises on
    a zero divisor. *)
Definition extra_var_mult (itr : nat) (extra_decay_time : R) : result R :=
  if Req_dec_T extra_decay_time 0 then Raise ZeroDivisionError
  else Ok (Rmax (1 - INR itr / extra_decay_time) 0).

(** [np.square(extra_std) * extra_var_mult]. *)
Definition extra_var (extra_std mult : R) : R := Np.square extra_std * mult.

(** [np.sqrt(np.square(cur_std) + np.square(extra_std) * extra_var_mult)],
    [extra_std] a scalar. *)
Definition sample_std_of (cur_std : list R) (extra_std mult : R) : list R :=
  map (fun s => sqrt (Np.square s + extra_var extra_std mult)) cur_std.

(** Order of numpy's sort on floats: numbers by [<=], [nan] after all. *)
Definition key_le (a b : option R) : bool :=
  match a, b with
  | Some u, Some v => if Rle_dec u v then true else false
  | _, None => true
  | None, Some _ => false
  end.

Fixpoint insert_by (key : nat -> option R) (i : nat) (l : list nat) : list nat :=
  match l with
  | [] => [i]
  | j :: l' =>
      if key_le (key i) (key j) then i :: j :: l' else j :: insert_by key i l'
  end.

(** [a.argsort()]: the indices of [a] in ascending order of their entries.
    numpy's default kind leaves the order among equal entries open; the
    model takes the order of an insertion sort, which keeps equal entries
    in index order (and is what numpy runs on short arrays). *)
Definition argsort (a : list (option R)) : list nat :=
  fold_right (insert_by (fun i => nth i a None)) [] (seq 0 (length a)).

(** [-fs]. *)
Definition neg (a : list (option R)) : list (option R) := map (option_map Ropp) a.

(** Descending order of fitness: a number ranks at least as high as any
    number not above it, and as [nan]. *)
Definition fitness_ge (a b : option R) : Prop :=
  match a, b with
  | Some u, Some v => v <= u
  | _, None => True
  | None, Some _ => False
  end.

(** One entry of the list returned by [run_collect]: the sampled parameter
    vector with its evaluation result. *)
Definition Info : Type := (list R * ResultPath.t)%type.

(** [path['returns'][0]]. *)
Definition first_return (p : ResultPath.t) : result (option R) :=
  match ResultPath.returns p with
  | [] => Raise IndexError
  | f :: _ => Ok f
  end.

(** [np.array([path['returns'][0] for path in paths])]. *)
Fixpoint fitness (paths : list ResultPath.t) : result (list (option R)) :=
  match paths with
  | [] => Ok []
  | p :: rest =>
      f <- first_return p ;;
      fs <- fitness rest ;;
      Ok (f :: fs)
  end.

(** Reductions of a two-dimensional array along axis 0. *)
Definition ncols (rows : list (list R)) : nat :=
  match rows with
  | [] => 0%nat
  | r :: _ => length r
  end.

Definition column (j : nat) (rows : list (list R)) : list R :=
  map (fun r => nth j r 0) rows.

Definition mean_axis0 (rows : list (list R)) : list R :=
  map (fun j => Np.mean_of (column j rows)) (seq 0 (ncols rows)).

Definition std_axis0 (rows : list (list R)) : list R :=
  map (fun j => Np.std_of 0 (column j rows)) (seq 0 (ncols rows)).

(** What one pass of the loop body computes from the collected batch. *)
Record Update : Type :=
  { best_inds : list nat;
    new_mean : list R;
    new_std : list R;
    best_x : list R }.

(** Lines 142-151 of [train].  [n_best] is at least 1 there, so the slice
    [[:n_best]] keeps a prefix.  On an empty selection numpy's reductions
    only warn; the exception is raised by [best_xs[0]]. *)
Definition update (n_best : Z) (infos : list Info) : result Update :=
  let xs := map fst infos in
  let paths := map snd infos in
  fs <- fitness paths ;;
  let best_inds := firstn (Z.to_nat n_best) (argsort (neg fs)) in
  let best_xs := map (fun i => nth i xs []) best_inds in
  match best_xs with
  | [] => Raise IndexError
  | best_x :: _ =>
      Ok {| best_inds := best_inds;
            new_mean := mean_axis0 best_xs;
            new_std := std_axis0 best_xs;
            best_x := best_x |}
  end.

Module CEM.
(** The constructor's arguments that [train] reads ([plot] and the
    collaborators apart). *)
Record t : Type := mk
  { n_itr : nat;
    max_path_length : nat;
    discount : R;
    init_std : R;
    n_samples : Z;
    batch_size : option Z;
    best_frac : R;
    extra_std : R;
    extra_decay_time : R;
    n_evals : nat }.
End CEM.

(** The variables [train] carries from one iteration to the next, with the
    parameter slot of [self.policy]. *)
Record State : Type :=
  { cur_mean : list R;
    cur_std : list R;
    policy : list R }.

(** What one iteration used and produced. *)
Record IterLog : Type :=
  { log_itr : nat;
    log_sample_std : list R;
    log_criterion : string;
    log_threshold : Z;
    log_infos : list Info;
    log_update : Update }.

Section Train.

(** [stateful_pool.singleton_pool.run_collect] with the worker above: the
    batch it returns at an iteration, for a threshold and an argument
    bundle. *)
Variable run_collect : nat -> Z -> Args.t -> list Info.

(** Lines 126-131: the criterion tag and the threshold. *)
Definition dispatch (self : CEM.t) : string * Z :=
  match CEM.batch_size self with
  | None => ("paths"%string, CEM.n_samples self)
  | Some b => ("samples"%string, b)
  end.

(** The body of the loop of [train]. *)
Definition train_itr (self : CEM.t) (n_best : Z) (itr : nat) (st : State)
  : result (State * IterLog) :=
  mult <- extra_var_mult itr (CEM.extra_decay_time self) ;;
  let sample_std := sample_std_of (cur_std st) (CEM.extra_std self) mult in
  let criterion := fst (dispatch self) in
  let threshold := snd (dispatch self) in
  let infos :=
    run_collect itr threshold
      (Args.mk (cur_mean st) sample_std (CEM.max_path_length self)
               (CEM.discount self) criterion (CEM.n_evals self)) in
  u <- update n_best infos ;;
  Ok ({| cur_mean := new_mean u; cur_std := new_std u; policy := best_x u |},
      {| log_itr := itr;
         log_sample_std := sample_std;
         log_criterion := criterion;
         log_threshold := threshold;
         log_infos := infos;
         log_update := u |}).

(** [for itr in range(n_itr)]: the iterations completed, and the final
    state or the exception that ended the run. *)
Fixpoint train_loop (self : CEM.t) (n_best : Z) (itrs : list nat) (st : State)
  : list IterLog * result State :=
  match itrs with
  | [] => ([], Ok st)
  | itr :: rest =>
      match train_itr self n_best itr st with
      | Raise e => ([], Raise e)
      | Ok (st', lg) =>
          let r := train_loop self n_best rest st' in
          (lg :: fst r, snd r)
      end
  end.

(** [train]: the scalar [init_std] is a one-element array under
    broadcasting; [param_values] is [self.policy.get_param_values()]. *)
Definition train (self : CEM.t) (param_values : list R)
  : list IterLog * result State :=
  let cur_std := [CEM.init_std self] in
  let cur_mean := param_values in
  let n_best := n_best_of (CEM.n_samples self) (CEM.best_frac self) in
  train_loop self n_best (seq 0 (CEM.n_itr self))
    {| cur_mean := cur_mean; cur_std := cur_std; policy := param_values |}.

End Train.

(** ** Per-iteration records *)

Module NpNan.

(** The entries of a float array when all of them are numbers; an array
    holding a [nan] reduces to [nan] under [np.mean], [np.std], [np.max]
    and [np.min]. *)
Fixpoint numbers (a : list (option R)) : option (list R) :=
  match a with
  | [] => Some []
  | None :: _ => None
  | Some v :: rest =>
      match numbers rest with
      | Some x => Some (v :: x)
      | None => None
      end
  end.

Definition mean (a : list (option R)) : option R :=
  match numbers a with
  | Some x => Np.mean x
  | None => None
  end.

(** [np.std(a)], no degree of freedom removed. *)
Definition std (a : list (option R)) : option R :=
  match numbers a with
  | Some x => Np.std 0 x
  | None => None
  end.

(** [np.max] and [np.min]: a left-to-right reduction from the first entry;
    an empty array has no identity to reduce from and raises. *)
Definition extremum (pick : R -> R -> R) (a : list (option R))
  : result (option R) :=
  match a with
  | [] => Raise ValueError
  | _ :: _ =>
      Ok (match numbers a with
          | Some (v :: rest) => Some (fold_left pick rest v)
          | _ => None
          end)
  end.

Definition max : list (option R) -> result (option R) := extremum Rmax.
Definition min : list (option R) -> result (option R) := extremum Rmin.

End NpNan.

(** A value handed to [tabular.record]: an integer or a float. *)
Inductive tab_val : Type :=
| TInt (n : Z)
| TFloat (v : option R).

(** Line 163: the [full_paths] lists of the results, chained into one
    list. *)
Definition flatten_paths (paths : list ResultPath.t) : list Path.t :=
  concat (map ResultPath.full_paths paths).

(** Lines 153-167 of [train]: the keys and values passed to
    [tabular.record], in the order of the calls.  [cur_std] is the std just
    refitted, [fs] the fitness array, [paths] the evaluation results of the
    batch. *)
Definition iteration_records (itr : nat) (cur_std : list R)
           (fs : list (option R)) (paths : list ResultPath.t)
  : result (list (string * tab_val)) :=
  let undiscounted_returns := map ResultPath.undiscounted_return paths in
  max_return <- NpNan.max undiscounted_returns ;;
  min_return <- NpNan.min undiscounted_returns ;;
  let full := flatten_paths paths in
  Ok [ ("Iteration"%string, TInt (Z.of_nat itr));
       ("CurStdMean"%string, TFloat (Np.mean cur_std));
       ("AverageReturn"%string, TFloat (NpNan.mean undiscounted_returns));
       ("StdReturn"%string, TFloat (NpNan.std undiscounted_returns));
       ("MaxReturn"%string, TFloat max_return);
       ("MinReturn"%string, TFloat min_return);
       ("AverageDiscountedReturn"%string, TFloat (NpNan.mean fs));
       ("NumTrajs"%string, TInt (Z.of_nat (length paths)));
       ("AvgTrajLen"%string,
        TFloat (Np.mean (map (fun path => INR (length (Path.returns path)))
                             full))) ].

(** The value recorded under a key. *)
Fixpoint lookup (key : string) (recs : list (string * tab_val))
  : option tab_val :=
  match recs with
  | [] => None
  | (k, v) :: rest => if String.eqb k key then Some v else lookup key rest
  end.

(** ** The arithmetic in binary64 *)

Module F64.

(** The estimators and the survivor count with the float64 operations the
    code executes.  numpy reduces an array of fewer than 8 elements with the
    left-to-right loop written here (longer arrays are summed pairwise), so
    the module speaks for short arrays. *)

(** [float(n)] for a count, exact below 2^53. *)
Definition of_nat (n : nat) : float :=
  PrimFloat.of_uint63 (Uint63.of_Z (Z.of_nat n)).

(** [float(n)] for a Python integer of magnitude below 2^63. *)
Definition of_Z (n : Z) : float :=
  if (n <? 0)%Z then PrimFloat.opp (PrimFloat.of_uint63 (Uint63.of_Z (- n)))
  else PrimFloat.of_uint63 (Uint63.of_Z n).

Definition sum (x : list float) : float := fold_left PrimFloat.add x 0%float.

(** [np.mean]. *)
Definition mean (x : list float) : float := (sum x / of_nat (length x))%float.

(** [np.std(x, ddof=ddof)]. *)
Definition std (ddof : nat) (x : list float) : float :=
  PrimFloat.sqrt
    (sum (map (fun v => ((v - mean x) * (v - mean x))%float) x)
     / of_nat (length x - ddof))%float.

(** Lines 14-17. *)
Definition _get_stderr_lb (x : list float) : float :=
  (mean x
   - std (ddof_for (length x)) x / PrimFloat.sqrt (of_nat (length x)))%float.

Definition max_len (x : list (list float)) : nat :=
  fold_right (fun s m => Nat.max (length s) m) 0%nat x.

(** [zip_longest] with [fillvalue=nan]. *)
Definition zip_longest (x : list (list float)) : list (list float) :=
  map (fun t => map (fun s => nth t s nan) x) (seq 0 (max_len x)).

(** [n = len(temp_list) - np.sum(np.isnan(temp_list))]: an entry counts
    when it is not nan, be it padding or input. *)
Definition col_n (c : list float) : nat :=
  (length c - length (filter PrimFloat.is_nan c))%nat.

(** The entries [np.nanmean] and [np.nanstd] reduce over. *)
Definition numbers (c : list float) : list float :=
  filter (fun v => negb (PrimFloat.is_nan v)) c.

(** Lines 20-27, column by column. *)
Definition _get_stderr_lb_varyinglens (x : list (list float)) : list float :=
  map (fun c =>
         (mean (numbers c)
          - std (ddof_for (col_n c)) (numbers c)
            / PrimFloat.sqrt (of_nat (col_n c)))%float)
      (zip_longest x).

(** [int(q)]: truncation towards zero; [None] when Python raises (on nan
    and on an infinity). *)
Definition py_int (q : float) : option Z :=
  match Prim2SF q with
  | S754_nan => None
  | S754_infinity _ => None
  | S754_zero _ => Some 0%Z
  | S754_finite s m e =>
      let mag := Z.shiftl (Zpos m) e in
      Some (if s then (- mag)%Z else mag)
  end.

(** Line 118: [max(1, int(n_samples * best_frac))], the product taken in
    float64. *)
Definition n_best_of (n_samples : Z) (best_frac : float) : option Z :=
  option_map (Z.max 1) (py_int (of_Z n_samples * best_frac)%float).

End F64.

(** * Properties *)

(** ** Sums, means and deviations *)

Lemma fold_left_Rplus_total (x : list R) (a : R) :
  fold_left Rplus x a = a + Spec.total x.
Proof.
  revert a; induction x as [|v x IH]; intros a; simpl.
  - lra.
  - rewrite IH. lra.
Qed.

Lemma np_sum_total (x : list R) : Np.sum x = Spec.total x.
Proof. unfold Np.sum. rewrite fold_left_Rplus_total. lra. Qed.

Lemma np_mean_of_spec (x : list R) : Np.mean_of x = Spec.mean x.
Proof. unfold Np.mean_of, Spec.mean. now rewrite np_sum_total. Qed.

Lemma np_sq_dev_spec (x : list R) :
  Np.sum (map (fun v => Np.square (v - Np.mean_of x)) x) = Spec.sq_dev x.
Proof.
  rewrite np_sum_total, np_mean_of_spec. unfold Spec.sq_dev.
  f_equal. apply map_ext. intros v. unfold Np.square. ring.
Qed.

Lemma np_std_of_population (x : list R) :
  Np.std_of 0 x = Spec.std_population x.
Proof.
  unfold Np.std_of, Np.var_of, Spec.std_population.
  now rewrite np_sq_dev_spec, Nat.sub_0_r.
Qed.

Lemma np_std_of_sample (x : list R) :
  (1 <= length x)%nat -> Np.std_of 1 x = Spec.std_sample x.
Proof.
  intros H. unfold Np.std_of, Np.var_of, Spec.std_sample.
  rewrite np_sq_dev_spec, minus_INR by exact H. reflexivity.
Qed.

Lemma total_const (v : R) (x : list R) :
  Forall (eq v) x -> Spec.total x = INR (length x) * v.
Proof.
  induction 1 as [|u x Hu _ IH].
  - simpl. lra.
  - subst u. change (Spec.total (v :: x)) with (v + Spec.total x).
    rewrite IH. change (length (v :: x)) with (S (length x)).
    rewrite S_INR. lra.
Qed.

Lemma mean_const (v : R) (x : list R) :
  x <> [] -> Forall (eq v) x -> Spec.mean x = v.
Proof.
  intros Hne Hall. unfold Spec.mean. rewrite (total_const v) by exact Hall.
  assert (INR (length x) <> 0).
  { apply not_0_INR. destruct x; [congruence | discriminate]. }
  field. assumption.
Qed.

Lemma total_zero (x : list R) : Forall (eq 0) x -> Spec.total x = 0.
Proof. intros H. rewrite (total_const 0) by exact H. lra. Qed.

Lemma sq_dev_const (v : R) (x : list R) :
  x <> [] -> Forall (eq v) x -> Spec.sq_dev x = 0.
Proof.
  intros Hne Hall. unfold Spec.sq_dev. apply total_zero.
  rewrite (mean_const v) by assumption.
  apply Forall_map. apply Forall_impl with (2 := Hall).
  intros u <-. ring.
Qed.

Lemma stderr_lb_const (v : R) (x : list R) :
  x <> [] -> Forall (eq v) x -> Spec.stderr_lb x = v.
Proof.
  intros Hne Hall. unfold Spec.stderr_lb, Spec.stderr, Spec.std_sample,
    Spec.std_population.
  rewrite (mean_const v), (sq_dev_const v) by assumption.
  unfold Rdiv at 2 3. rewrite !Rmult_0_l, sqrt_0.
  destruct (1 <? length x)%nat; unfold Rdiv; rewrite Rmult_0_l; lra.
Qed.

Lemma get_stderr_lb_spec (x : list R) :
  (1 <= length x)%nat -> _get_stderr_lb x = Some (Spec.stderr_lb x).
Proof.
  intros HM. unfold _get_stderr_lb, Np.mean, Np.std, ddof_for,
    Spec.stderr_lb, Spec.stderr.
  destruct x as [|v x]; [simpl in HM; lia|].
  destruct (1 <? length (v :: x))%nat eqn:Hlen.
  - apply Nat.ltb_lt in Hlen.
    destruct (length (v :: x) - 1)%nat eqn:Hsub; [lia|].
    simpl lift2. rewrite np_mean_of_spec, np_std_of_sample by lia.
    reflexivity.
  - destruct (length (v :: x) - 0)%nat eqn:Hsub; [simpl in Hsub; lia|].
    simpl lift2. rewrite np_mean_of_spec, np_std_of_population.
    reflexivity.
Qed.

(** ** C2: the stderr-lower-bound estimator *)

(** C2, as the code has it.  On a batch of M >= 1 scalars [_get_stderr_lb]
    returns the mean minus the standard error, the latter being the
    Bessel-corrected standard deviation when M > 1 and the population one
    when M = 1, over sqrt(M); a single value comes back unchanged. *)
Theorem get_stderr_lb_correct (x : list R) (HM : (1 <= length x)%nat) :
  _get_stderr_lb x
  = Some (Spec.mean x
          - (if (1 <? length x)%nat then Spec.std_sample x
             else Spec.std_population x) / sqrt (INR (length x)))
  /\ (forall v, x = [v] -> _get_stderr_lb x = Some v).
Proof.
  rewrite get_stderr_lb_spec by exact HM. split; [reflexivity|].
  intros v ->. f_equal. apply stderr_lb_const; [discriminate|].
  now constructor.
Qed.

Lemma get_stderr_lb_correct_witness :
  _get_stderr_lb [2] = Some 2.
Proof.
  apply (get_stderr_lb_correct [2]).
  - simpl. lia.
  - reflexivity.
Defined.

(** C2, as first stated, fails in the arithmetic of the code.  Three samples
    equal to 0.7 (the float 0x1.6666666666666p-1) have the float64 mean
    0x1.6666666666665p-1, one unit in the last place below them, and lines
    15-17 return 0x1.6666666666664p-1 (0.6999999999999997), not the common
    value. *)
Lemma get_stderr_lb_equal_values_rounded :
  F64.mean [0x1.6666666666666p-1; 0x1.6666666666666p-1;
            0x1.6666666666666p-1]%float
  = 0x1.6666666666665p-1%float
  /\ F64._get_stderr_lb [0x1.6666666666666p-1; 0x1.6666666666666p-1;
                         0x1.6666666666666p-1]%float
     = 0x1.6666666666664p-1%float
  /\ PrimFloat.eqb
       (F64._get_stderr_lb [0x1.6666666666666p-1; 0x1.6666666666666p-1;
                            0x1.6666666666666p-1]%float)
       0x1.6666666666666p-1%float
     = false.
Proof. vm_compute. repeat split; reflexivity. Qed.

(** ** Padded columns *)

Lemma max_len_upper (x : list (list R)) (s : list R) :
  In s x -> (length s <= max_len x)%nat.
Proof.
  induction x as [|u x IH]; [intros []|].
  change (max_len (u :: x)) with (Nat.max (length u) (max_len x)).
  intros [-> | Hin]; [lia|]. specialize (IH Hin). lia.
Qed.

Lemma max_len_attained (x : list (list R)) :
  x <> [] -> exists s, In s x /\ length s = max_len x.
Proof.
  induction x as [|u x IH]; [congruence|]. intros _.
  destruct x as [|w x].
  - exists u. simpl. split; [now left | lia].
  - destruct IH as (s & Hin & Hlen); [discriminate|].
    change (max_len (u :: w :: x))
      with (Nat.max (length u) (max_len (w :: x))).
    destruct (Nat.max_spec (length u) (max_len (w :: x))) as [[_ E] | [_ E]];
      rewrite E.
    + exists s. split; [now right | exact Hlen].
    + exists u. split; [now left | reflexivity].
Qed.

Lemma max_len_zero (x : list (list R)) :
  max_len x = 0%nat <-> Forall (fun s => s = []) x.
Proof.
  induction x as [|u x IH].
  - split; [constructor | reflexivity].
  - change (max_len (u :: x)) with (Nat.max (length u) (max_len x)). split.
    + intros H. constructor.
      * destruct u; [reflexivity | cbn [length] in H; lia].
      * apply IH. lia.
    + intros H. inversion H as [|? ? Hu Hx]; subst.
      apply IH in Hx. rewrite Hx. reflexivity.
Qed.

Lemma zip_longest_nth (x : list (list R)) (t : nat) :
  (t < max_len x)%nat ->
  nth t (zip_longest x) [] = map (fun s => nth_error s t) x.
Proof.
  intros Ht. unfold zip_longest.
  rewrite nth_indep with (d' := map (fun s => nth_error s 0%nat) x)
    by now rewrite length_map, length_seq.
  rewrite (map_nth (fun t => map (fun s => nth_error s t) x)).
  now rewrite seq_nth.
Qed.

Lemma drop_nan_column (x : list (list R)) (t : nat) :
  Np.drop_nan (map (fun s => nth_error s t) x) = Spec.reaching t x.
Proof.
  unfold Spec.reaching. induction x as [|s x IH]; [reflexivity|].
  simpl. rewrite IH. destruct (nth_error s t) as [v|] eqn:E.
  - assert (Hlt : (t < length s)%nat)
      by (apply nth_error_Some; congruence).
    apply Nat.ltb_lt in Hlt as Hb. rewrite Hb. simpl.
    now rewrite (nth_error_nth _ _ 0 E).
  - apply nth_error_None in E.
    assert (Hb : (t <? length s)%nat = false) by (apply Nat.ltb_ge; lia).
    now rewrite Hb.
Qed.

Lemma col_n_drop_nan (c : list (option R)) :
  col_n c = length (Np.drop_nan c).
Proof.
  unfold col_n, Np.count_nan.
  assert (H : length c
              = (length (filter (fun v => match v with
                                          | None => true
                                          | Some _ => false
                                          end) c)
                 + length (Np.drop_nan c))%nat).
  { induction c as [|[r|] c IH]; simpl; lia. }
  lia.
Qed.

Lemma reaching_length (x : list (list R)) (t : nat) :
  length (Spec.reaching t x) = Spec.n_at t x.
Proof. unfold Spec.reaching, Spec.n_at. apply length_map. Qed.

Lemma n_at_positive (x : list (list R)) (t : nat) :
  (t < max_len x)%nat -> (1 <= Spec.n_at t x)%nat.
Proof.
  intros Ht. destruct (max_len_attained x) as (s & Hin & Hlen).
  { intros ->. simpl in Ht. lia. }
  unfold Spec.n_at.
  assert (Hf : In s (filter (fun s => (t <? length s)%nat) x)).
  { apply filter_In. split; [exact Hin|]. apply Nat.ltb_lt. lia. }
  destruct (filter _ x); [contradiction | simpl; lia].
Qed.

Lemma map2_map_map {A B C D : Type} (f : B -> C -> D) (g : A -> B)
      (h : A -> C) (l : list A) :
  map2 f (map g l) (map h l) = map (fun a => f (g a) (h a)) l.
Proof. induction l as [|a l IH]; simpl; [reflexivity | now rewrite IH]. Qed.

(** The estimator, column by column: each column is handed to the scalar
    estimator's arithmetic on its non-nan entries. *)
Lemma varyinglens_columns (x : list (list R)) :
  _get_stderr_lb_varyinglens x
  = map (fun c => _get_stderr_lb (Np.drop_nan c)) (zip_longest x).
Proof.
  unfold _get_stderr_lb_varyinglens. cbv zeta.
  rewrite (map_map col_n).
  rewrite (map2_map_map (lift2 Rdiv)).
  rewrite (map2_map_map (lift2 Rminus)).
  apply map_ext. intros c. unfold _get_stderr_lb, Np.nanmean, Np.nanstd.
  now rewrite col_n_drop_nan.
Qed.

Lemma varyinglens_nth (x : list (list R)) (t : nat) :
  (t < max_len x)%nat ->
  nth_error (_get_stderr_lb_varyinglens x) t
  = Some (_get_stderr_lb (Spec.reaching t x)).
Proof.
  intros Ht. rewrite varyinglens_columns.
  rewrite nth_error_map.
  assert (Hlen : (t < length (zip_longest x))%nat)
    by (unfold zip_longest; now rewrite length_map, length_seq).
  rewrite (nth_error_nth' _ [] Hlen). simpl.
  now rewrite zip_longest_nth, drop_nan_column.
Qed.

Lemma varyinglens_length (x : list (list R)) :
  length (_get_stderr_lb_varyinglens x) = max_len x.
Proof.
  rewrite varyinglens_columns. unfold zip_longest.
  now rewrite !length_map, length_seq.
Qed.

(** ** C3: the varying-length estimator *)

(** C3.  The varying-length estimator returns a vector as long as the
    longest input sequence.  At each index t it works on the values of the
    n_t samples longer than t only (a shorter sample adds nothing, not a
    zero): the entry is their mean minus their standard deviation (one
    degree of freedom removed when n_t > 1, none when n_t = 1) over
    sqrt(n_t), hence the sample's own value where a single sample reaches
    t. *)
Theorem varyinglens_correct (x : list (list R)) :
  length (_get_stderr_lb_varyinglens x) = max_len x
  /\ (forall s, In s x -> (length s <= max_len x)%nat)
  /\ (x <> [] -> exists s, In s x /\ length s = max_len x)
  /\ forall t, (t < max_len x)%nat ->
       let col := nth t (zip_longest x) [] in
       let vals := Spec.reaching t x in
       let n_t := Spec.n_at t x in
       Np.drop_nan col = vals
       /\ col_n col = n_t
       /\ nth_error (_get_stderr_lb_varyinglens x) t
          = Some (Some (Spec.mean vals
                        - (if (1 <? n_t)%nat then Spec.std_sample vals
                           else Spec.std_population vals) / sqrt (INR n_t)))
       /\ (forall s, filter (fun s => (t <? length s)%nat) x = [s] ->
             nth_error (_get_stderr_lb_varyinglens x) t
             = Some (Some (nth t s 0))).
Proof.
  split; [apply varyinglens_length|].
  split; [apply max_len_upper|].
  split; [apply max_len_attained|].
  intros t Ht col vals n_t.
  assert (Hcol : Np.drop_nan col = vals).
  { unfold col, vals. now rewrite zip_longest_nth, drop_nan_column. }
  assert (Hn : length vals = n_t) by apply reaching_length.
  assert (Hpos : (1 <= length vals)%nat)
    by (rewrite Hn; now apply n_at_positive).
  split; [exact Hcol|].
  split; [now rewrite col_n_drop_nan, Hcol|].
  rewrite varyinglens_nth by exact Ht. fold vals.
  rewrite get_stderr_lb_spec by exact Hpos.
  split.
  - unfold Spec.stderr_lb, Spec.stderr. rewrite Hn. reflexivity.
  - intros s Hs. do 2 f_equal.
    assert (Hv : vals = [nth t s 0])
      by (unfold vals, Spec.reaching; now rewrite Hs).
    rewrite Hv. apply stderr_lb_const; [discriminate | now constructor].
Qed.

Lemma varyinglens_correct_witness :
  nth_error (_get_stderr_lb_varyinglens [[1; 2]; [3]]) 1 = Some (Some 2).
Proof.
  destruct (varyinglens_correct [[1; 2]; [3]]) as (_ & _ & _ & H).
  destruct (H 1%nat) as (_ & _ & _ & Hone); [simpl; lia|].
  apply (Hone [1; 2]). reflexivity.
Defined.

(** ** C10: the divisors of the varying-length estimate *)

(** C10, as the code has it.  On a non-empty batch of sequences of numbers,
    at every index t below the longest length the number n of contributors
    counted by the estimator is at least 1 (every sample longer than t
    contributes, the longest among them), so neither sqrt(n) nor the
    variance divisor n - ddof is zero; and the output is empty exactly when
    every input sample is empty. *)
Theorem varyinglens_well_defined (x : list (list R)) (Hx : x <> []) :
  (forall t, (t < max_len x)%nat ->
     let col := nth t (zip_longest x) [] in
     (1 <= col_n col)%nat
     /\ (forall s, In s x -> (t < length s)%nat ->
           In (nth t s 0) (Np.drop_nan col))
     /\ sqrt (INR (col_n col)) <> 0
     /\ (1 <= col_n col - ddof_for (col_n col))%nat)
  /\ (_get_stderr_lb_varyinglens x = [] <-> Forall (fun s => s = []) x).
Proof.
  split.
  - intros t Ht col.
    assert (Hcol : Np.drop_nan col = Spec.reaching t x)
      by (unfold col; now rewrite zip_longest_nth, drop_nan_column).
    assert (Hn : col_n col = Spec.n_at t x)
      by (now rewrite col_n_drop_nan, Hcol, reaching_length).
    pose proof (n_at_positive x t Ht) as Hpos.
    split; [rewrite Hn; exact Hpos|]. split; [|split].
    + intros s Hin Hlt. rewrite Hcol. unfold Spec.reaching.
      apply (in_map (fun s => nth t s 0)). apply filter_In.
      split; [exact Hin | now apply Nat.ltb_lt].
    + rewrite Hn. intros H0. apply sqrt_eq_0 in H0; [|apply pos_INR].
      apply INR_eq with (m := 0%nat) in H0. lia.
    + rewrite Hn. unfold ddof_for.
      destruct (1 <? Spec.n_at t x)%nat eqn:E; [apply Nat.ltb_lt in E|]; lia.
  - rewrite <- max_len_zero, <- varyinglens_length.
    split; [intros ->; reflexivity|].
    now destruct (_get_stderr_lb_varyinglens x).
Qed.

Lemma varyinglens_well_defined_witness :
  (1 <= col_n (nth 1 (zip_longest [[1; 2]; [3]]%R) []))%nat.
Proof.
  assert (Hx : [[1; 2]; [3]] <> []) by discriminate.
  destruct (varyinglens_well_defined [[1; 2]; [3]] Hx) as (H & _).
  destruct (H 1%nat) as (Hn & _); [simpl; lia | exact Hn].
Defined.

(** C10, as first stated, fails in the arithmetic of the code.  Two samples
    [2^1023] have two contributors at index 0, yet the entry is nan: their
    sum overflows to infinity and the deviations from it are not numbers.
    And the count of line 24 goes by nan-ness: on the one sample [nan] the
    longest length is 1, the count at index 0 is 0 and the entry is nan. *)
Lemma varyinglens_entry_nan :
  F64.col_n (nth 0 (F64.zip_longest [[0x1p1023]; [0x1p1023]]%float) [])
  = 2%nat
  /\ map PrimFloat.is_nan
         (F64._get_stderr_lb_varyinglens [[0x1p1023]; [0x1p1023]]%float)
     = [true]
  /\ F64.max_len [[nan]] = 1%nat
  /\ F64.col_n (nth 0 (F64.zip_longest [[nan]]) []) = 0%nat
  /\ map PrimFloat.is_nan (F64._get_stderr_lb_varyinglens [[nan]]) = [true].
Proof. vm_compute. repeat split; reflexivity. Qed.

(** ** C7: discounted returns *)

Lemma discount_cumsum_length (rewards : list R) (discount : R) :
  length (discount_cumsum rewards discount) = length rewards.
Proof.
  induction rewards as [|r rest IH]; [reflexivity|].
  simpl. destruct (discount_cumsum rest discount); simpl in *; lia.
Qed.

Lemma discount_cumsum_step (rewards : list R) (discount : R) (t : nat) :
  (S t < length rewards)%nat ->
  nth t (discount_cumsum rewards discount) 0
  = nth t rewards 0 + discount * nth (S t) (discount_cumsum rewards discount) 0.
Proof.
  revert t. induction rewards as [|r rest IH]; intros t Ht; [simpl in Ht; lia|].
  pose proof (discount_cumsum_length rest discount) as Hlen.
  simpl in Ht. simpl discount_cumsum.
  destruct (discount_cumsum rest discount) as [|next tl] eqn:E.
  - simpl in Hlen. lia.
  - destruct t as [|t]; [reflexivity|].
    change (nth (S t) ((r + discount * next) :: next :: tl) 0)
      with (nth t (next :: tl) 0).
    change (nth (S (S t)) ((r + discount * next) :: next :: tl) 0)
      with (nth (S t) (next :: tl) 0).
    change (nth (S t) (r :: rest) 0) with (nth t rest 0).
    apply IH. lia.
Qed.

Lemma discount_cumsum_last (rewards : list R) (discount : R) :
  last (discount_cumsum rewards discount) 0 = last rewards 0.
Proof.
  induction rewards as [|r rest IH]; [reflexivity|].
  pose proof (discount_cumsum_length rest discount) as Hlen.
  simpl discount_cumsum.
  destruct (discount_cumsum rest discount) as [|next tl] eqn:E.
  - destruct rest; [reflexivity | simpl in Hlen; lia].
  - destruct rest as [|r' rest]; [simpl in Hlen; lia|].
    change (last (r :: r' :: rest) 0) with (last (r' :: rest) 0).
    rewrite <- IH. reflexivity.
Qed.

(** C7.  The discounted-return sequence of a rollout is as long as its reward
    sequence, its last entry is the last reward, and each earlier entry is
    the reward plus the discount times the next return; the worker computes
    it for every rollout; rewards [1,1,1] with discount 0.5 give
    [1.75, 1.5, 1]. *)
Theorem discount_cumsum_correct (rewards : list R) (discount : R) :
  length (discount_cumsum rewards discount) = length rewards
  /\ last (discount_cumsum rewards discount) 0 = last rewards 0
  /\ (forall t, (S t < length rewards)%nat ->
        nth t (discount_cumsum rewards discount) 0
        = nth t rewards 0
          + discount * nth (S t) (discount_cumsum rewards discount) 0)
  /\ (forall rollout params a p,
        In p (run_evals rollout params a) ->
        Path.returns p = discount_cumsum (Path.rewards p) (Args.discount a))
  /\ discount_cumsum [1; 1; 1] (1 / 2) = [7 / 4; 3 / 2; 1].
Proof.
  split; [apply discount_cumsum_length|].
  split; [apply discount_cumsum_last|].
  split; [apply discount_cumsum_step|].
  split.
  - intros rollout params a p Hin. unfold run_evals in Hin.
    apply in_map_iff in Hin. destruct Hin as (e & <- & _). reflexivity.
  - simpl. f_equal; [lra|]. f_equal; lra.
Qed.

Lemma discount_cumsum_correct_witness :
  nth 0 (discount_cumsum [1; 1; 1] (1 / 2)) 0
  = nth 0 [1; 1; 1] 0 + 1 / 2 * nth 1 (discount_cumsum [1; 1; 1] (1 / 2)) 0.
Proof.
  apply (discount_cumsum_correct [1; 1; 1] (1 / 2)). simpl. lia.
Defined.

(** ** C6: the worker's increment *)

Lemma map2_length {A B C : Type} (f : A -> B -> C) (a : list A) (b : list B) :
  length (map2 f a b) = Nat.min (length a) (length b).
Proof.
  revert b; induction a as [|u a IH]; intros [|v b]; simpl; auto.
Qed.

Lemma broadcast_total (f : R -> R -> R) (a b : list R) :
  length a = length b \/ length a = 1%nat \/ length b = 1%nat ->
  exists c, broadcast f a b = Ok c
            /\ length c = if (length a =? 1)%nat then length b else length a.
Proof.
  intros H. unfold broadcast.
  destruct (length a =? length b)%nat eqn:E.
  - apply Nat.eqb_eq in E. eexists. split; [reflexivity|].
    rewrite map2_length, E, Nat.min_id.
    now destruct (length b =? 1)%nat.
  - apply Nat.eqb_neq in E.
    destruct a as [|u [|u' a]].
    + destruct b as [|v [|v' b]]; simpl in *; try lia.
      eexists. split; reflexivity.
    + eexists. split; [reflexivity|]. simpl. now rewrite length_map.
    + destruct b as [|v [|v' b]]; simpl in *; try lia.
      eexists. split; [reflexivity|]. simpl. now rewrite length_map.
Qed.

Lemma worker_after_draw (noise : nat -> R) (rollout : list R -> nat -> nat -> list R)
      (g : Globals) (a : Args.t) :
  draw_ok a ->
  exists params,
    _worker_rollout_policy noise rollout g a
    = (inc <- increment (Args.criterion a) (run_evals rollout params a) ;;
       Ok ({| policy_params := params |},
           ((params,
             ResultPath.mk (run_evals rollout params a)
               (_get_stderr_lb
                  (map Path.undiscounted_return (run_evals rollout params a)))
               (_get_stderr_lb_varyinglens
                  (map Path.returns (run_evals rollout params a)))),
            inc))).
Proof.
  intros Hok. unfold _worker_rollout_policy, draw_ok in *.
  set (k := length (Args.cur_mean a)) in *.
  assert (Hz : length (standard_normal noise k) = k)
    by (unfold standard_normal; now rewrite length_map, length_seq).
  destruct (broadcast_total Rmult (standard_normal noise k) (Args.sample_std a))
    as (scaled & Es & Ls); [rewrite Hz; lia|].
  rewrite Hz in Ls.
  destruct (broadcast_total Rplus scaled (Args.cur_mean a))
    as (params & Ep & _).
  { fold k. rewrite Ls. destruct (k =? 1)%nat eqn:E; [|now left].
    apply Nat.eqb_eq in E. now right; right. }
  exists params. rewrite Es. simpl bind at 1. rewrite Ep. reflexivity.
Qed.

Lemma increment_samples (paths : list Path.t) (path : Path.t) :
  increment "samples" (paths ++ [path]) = Ok (length (Path.rewards path)).
Proof. unfold increment. simpl String.eqb. now rewrite rev_unit. Qed.

Lemma run_evals_last (rollout : list R -> nat -> nat -> list R)
      (params : list R) (a : Args.t) :
  (1 <= Args.n_evals a)%nat ->
  exists front path,
    run_evals rollout params a = front ++ [path]
    /\ Path.rewards path
       = rollout params (Args.max_path_length a) (Args.n_evals a - 1)%nat.
Proof.
  intros Hn. unfold run_evals.
  destruct (Args.n_evals a) as [|n]; [lia|].
  rewrite seq_S, map_app. simpl.
  do 2 eexists. split; [reflexivity|]. simpl. now rewrite Nat.sub_0_r.
Qed.

Lemma broadcast_mismatch (f : R -> R -> R) (a b : list R) :
  length a <> length b -> length a <> 1%nat -> length b <> 1%nat ->
  broadcast f a b = Raise ValueError.
Proof.
  intros Hab Ha Hb. unfold broadcast.
  apply Nat.eqb_neq in Hab. rewrite Hab.
  destruct a as [|u [|u' a]], b as [|v [|v' b]]; simpl in *;
    try congruence; reflexivity.
Qed.

Lemma standard_normal_length (noise : nat -> R) (k : nat) :
  length (standard_normal noise k) = k.
Proof. unfold standard_normal. now rewrite length_map, length_seq. Qed.

Lemma run_evals_length (rollout : list R -> nat -> nat -> list R)
      (params : list R) (a : Args.t) :
  length (run_evals rollout params a) = Args.n_evals a.
Proof. unfold run_evals. now rewrite length_map, length_seq. Qed.

Lemma worker_traced_outcome (noise : nat -> R)
      (rollout : list R -> nat -> nat -> list R) (g : Globals) (a : Args.t) :
  _worker_rollout_policy noise rollout g a
  = match snd (_worker_rollout_policy_traced noise rollout g a) with
    | Ok r => Ok (fst (fst (_worker_rollout_policy_traced noise rollout g a)), r)
    | Raise e => Raise e
    end.
Proof.
  unfold _worker_rollout_policy, _worker_rollout_policy_traced.
  destruct (broadcast Rmult _ _) as [scaled|e]; [|reflexivity].
  simpl bind at 1.
  destruct (broadcast Rplus _ _) as [params|e]; [|reflexivity].
  simpl bind at 1. cbn [fst snd].
  destruct (increment _ _); reflexivity.
Qed.

Lemma worker_traced_after_draw (noise : nat -> R)
      (rollout : list R -> nat -> nat -> list R) (g : Globals) (a : Args.t) :
  draw_ok a ->
  exists scaled params,
    broadcast Rmult (standard_normal noise (length (Args.cur_mean a)))
              (Args.sample_std a) = Ok scaled
    /\ broadcast Rplus scaled (Args.cur_mean a) = Ok params
    /\ _worker_rollout_policy_traced noise rollout g a
       = (({| policy_params := params |}, run_evals rollout params a),
          inc <- increment (Args.criterion a) (run_evals rollout params a) ;;
          Ok ((params,
               ResultPath.mk (run_evals rollout params a)
                 (_get_stderr_lb
                    (map Path.undiscounted_return (run_evals rollout params a)))
                 (_get_stderr_lb_varyinglens
                    (map Path.returns (run_evals rollout params a)))),
              inc)).
Proof.
  intros Hok. unfold _worker_rollout_policy_traced, draw_ok in *.
  set (k := length (Args.cur_mean a)) in *.
  pose proof (standard_normal_length noise k) as Hz.
  destruct (broadcast_total Rmult (standard_normal noise k) (Args.sample_std a))
    as (scaled & Es & Ls); [rewrite Hz; lia|].
  rewrite Hz in Ls.
  destruct (broadcast_total Rplus scaled (Args.cur_mean a))
    as (params & Ep & _).
  { fold k. rewrite Ls. destruct (k =? 1)%nat eqn:E; [|now left].
    apply Nat.eqb_eq in E. now right; right. }
  exists scaled, params. rewrite Es, Ep. repeat split; reflexivity.
Qed.

Lemma worker_traced_no_draw (noise : nat -> R)
      (rollout : list R -> nat -> nat -> list R) (g : Globals) (a : Args.t) :
  ~ draw_ok a ->
  _worker_rollout_policy_traced noise rollout g a = ((g, []), Raise ValueError).
Proof.
  intros Hno. unfold draw_ok in Hno. unfold _worker_rollout_policy_traced.
  rewrite broadcast_mismatch; [reflexivity | | |];
    rewrite ?standard_normal_length; lia.
Qed.

(** C6, as the code has it.  With the tag "samples" the worker returns, as
    its increment, the length of the reward sequence of the last rollout it
    ran; with the tag "paths" it returns 1 (shapes that broadcast, and at
    least one rollout for "samples").  With any other tag it returns no
    result.  When the shapes broadcast it raises [NotImplementedError], and
    it does so last (line 57): the drawn parameters are in the policy slot
    and all n_evals rollouts have run by then.  When they do not, it raises
    [ValueError] at the draw, with the policy untouched and no rollout
    run. *)
Theorem worker_increment (noise : nat -> R)
        (rollout : list R -> nat -> nat -> list R) (g : Globals) (a : Args.t) :
  (Args.criterion a = "samples"%string -> draw_ok a ->
   (1 <= Args.n_evals a)%nat ->
   exists params rp front path,
     _worker_rollout_policy noise rollout g a
     = Ok ({| policy_params := params |},
           ((params, rp), length (Path.rewards path)))
     /\ ResultPath.full_paths rp = front ++ [path]
     /\ Path.rewards path
        = rollout params (Args.max_path_length a) (Args.n_evals a - 1)%nat)
  /\ (Args.criterion a = "paths"%string -> draw_ok a ->
      exists params rp,
        _worker_rollout_policy noise rollout g a
        = Ok ({| policy_params := params |}, ((params, rp), 1%nat)))
  /\ (Args.criterion a <> "samples"%string ->
      Args.criterion a <> "paths"%string ->
      (forall r, _worker_rollout_policy noise rollout g a <> Ok r)
      /\ (draw_ok a ->
          _worker_rollout_policy noise rollout g a = Raise NotImplementedError
          /\ exists scaled params,
               broadcast Rmult
                 (standard_normal noise (length (Args.cur_mean a)))
                 (Args.sample_std a) = Ok scaled
               /\ broadcast Rplus scaled (Args.cur_mean a) = Ok params
               /\ _worker_rollout_policy_traced noise rollout g a
                  = (({| policy_params := params |},
                      run_evals rollout params a),
                     Raise NotImplementedError)
               /\ length (run_evals rollout params a) = Args.n_evals a)
      /\ (~ draw_ok a ->
          _worker_rollout_policy noise rollout g a = Raise ValueError
          /\ _worker_rollout_policy_traced noise rollout g a
             = ((g, []), Raise ValueError))).
Proof.
  split; [|split].
  - intros Hc Hok Hn.
    destruct (worker_after_draw noise rollout g a Hok) as (params & E).
    destruct (run_evals_last rollout params a Hn) as (front & path & Ef & Er).
    exists params. eexists. exists front, path.
    split; [|split; [|exact Er]].
    + rewrite E, Hc. rewrite Ef at 1. rewrite increment_samples. reflexivity.
    + exact Ef.
  - intros Hc Hok.
    destruct (worker_after_draw noise rollout g a Hok) as (params & E).
    exists params. eexists. rewrite E, Hc. reflexivity.
  - intros Hs Hp.
    assert (Hinc : forall paths,
               increment (Args.criterion a) paths = Raise NotImplementedError).
    { intros paths. unfold increment.
      apply String.eqb_neq in Hs, Hp. now rewrite Hs, Hp. }
    split; [|split].
    + intros r. unfold _worker_rollout_policy.
      destruct (broadcast Rmult _ _) as [scaled|e]; [|discriminate].
      simpl bind at 1.
      destruct (broadcast Rplus _ _) as [params|e]; [|discriminate].
      simpl bind at 1. rewrite Hinc. discriminate.
    + intros Hok.
      destruct (worker_traced_after_draw noise rollout g a Hok)
        as (scaled & params & Es & Ep & E).
      rewrite Hinc in E. simpl in E. split.
      * rewrite worker_traced_outcome, E. reflexivity.
      * exists scaled, params. repeat split; try assumption.
        apply run_evals_length.
    + intros Hno.
      pose proof (worker_traced_no_draw noise rollout g a Hno) as E.
      split; [|exact E].
      rewrite worker_traced_outcome, E. reflexivity.
Qed.

Lemma worker_increment_witness :
  (exists params rp front path,
      _worker_rollout_policy (fun _ => 0) (fun _ _ e => repeat 1 (S e))
        {| policy_params := [] |} (Args.mk [0] [1] 5 (1 / 2) "samples" 3)
      = Ok ({| policy_params := params |},
            ((params, rp), length (Path.rewards path)))
      /\ ResultPath.full_paths rp = front ++ [path]
      /\ Path.rewards path = repeat 1 3)
  /\ _worker_rollout_policy (fun _ => 0) (fun _ _ _ => [1; 1])
       {| policy_params := [] |} (Args.mk [0] [1] 2 (1 / 2) "batches" 1)
     = Raise NotImplementedError.
Proof.
  split.
  - apply (worker_increment (fun _ => 0) (fun _ _ e => repeat 1 (S e))
             {| policy_params := [] |} (Args.mk [0] [1] 5 (1 / 2) "samples" 3)).
    + reflexivity.
    + left. reflexivity.
    + simpl. lia.
  - destruct (worker_increment (fun _ => 0) (fun _ _ _ => [1; 1])
                {| policy_params := [] |}
                (Args.mk [0] [1] 2 (1 / 2) "batches" 1))
      as (_ & _ & H).
    destruct H as (_ & H & _); [discriminate | discriminate |].
    destruct H as (H & _); [left; reflexivity | exact H].
Defined.

(** C6, as first stated, fails: an unknown tag does not make the worker fail
    at once, nor always with the unimplemented-criterion error.  Called with
    the tag "batches" and n_evals = 2 on a policy holding [9], the worker
    raises [NotImplementedError] only after it has put the drawn vector [5]
    into the policy and run both rollouts.  With shapes that do not
    broadcast the same tag, and the tag "paths", end in [ValueError]; and
    "samples" with n_evals = 0 ends in [UnboundLocalError], there being no
    last rollout. *)
Lemma worker_unknown_tag_fails_late :
  (exists params,
      _worker_rollout_policy_traced (fun _ => 0) (fun _ _ e => repeat 1 (S e))
        {| policy_params := [9] |} (Args.mk [5] [1] 7 (1 / 2) "batches" 2)
      = (({| policy_params := params |},
          run_evals (fun _ _ e => repeat 1 (S e)) params
            (Args.mk [5] [1] 7 (1 / 2) "batches" 2)),
         Raise NotImplementedError)
      /\ params = [5]
      /\ map Path.rewards
           (run_evals (fun _ _ e => repeat 1 (S e)) params
              (Args.mk [5] [1] 7 (1 / 2) "batches" 2))
         = [[1]; [1; 1]])
  /\ _worker_rollout_policy (fun _ => 0) (fun _ _ _ => [1])
       {| policy_params := [9] |}
       (Args.mk [5; 5] [1; 1; 1] 7 (1 / 2) "batches" 2)
     = Raise ValueError
  /\ _worker_rollout_policy (fun _ => 0) (fun _ _ _ => [1])
       {| policy_params := [9] |}
       (Args.mk [5; 5] [1; 1; 1] 7 (1 / 2) "paths" 2)
     = Raise ValueError
  /\ _worker_rollout_policy (fun _ => 0) (fun _ _ _ => [1])
       {| policy_params := [9] |} (Args.mk [5] [1] 7 (1 / 2) "samples" 0)
     = Raise UnboundLocalError.
Proof.
  split; [|split; [|split]]; try reflexivity.
  exists [0 * 1 + 5]. split; [reflexivity|]. split; [|reflexivity].
  f_equal. lra.
Qed.

(** ** C5: the number of survivors *)

Lemma py_int_floor (r : R) :
  0 <= r -> IZR (py_int r) <= r < IZR (py_int r) + 1.
Proof.
  intros Hr. unfold py_int. destruct (Rle_dec 0 r) as [_|Hn]; [|contradiction].
  destruct (base_Int_part r) as (Hlo & Hhi). lra.
Qed.







(** ** C4: the exploration schedule *)

Lemma extra_var_mult_ok (itr : nat) (T : R) :
  T <> 0 -> extra_var_mult itr T = Ok (Rmax (1 - INR itr / T) 0).
Proof.
  intros HT. unfold extra_var_mult. now destruct (Req_dec_T T 0).
Qed.

Lemma extra_var_nonneg (extra_std : R) (itr : nat) (T : R) :
  0 <= extra_var extra_std (Rmax (1 - INR itr / T) 0).
Proof.
  unfold extra_var, Np.square.
  pose proof (Rmax_r (1 - INR itr / T) 0). nra.
Qed.

Lemma decay_ratio_mono (i j : nat) (T : R) :
  0 < T -> (i <= j)%nat -> INR i / T <= INR j / T.
Proof.
  intros HT Hij. apply le_INR in Hij.
  apply Rmult_le_compat_r; [|exact Hij].
  left. now apply Rinv_0_lt_compat.
Qed.

Lemma extra_var_mono (extra_std : R) (i j : nat) (T : R) :
  0 < T -> (i <= j)%nat ->
  extra_var extra_std (Rmax (1 - INR j / T) 0)
  <= extra_var extra_std (Rmax (1 - INR i / T) 0).
Proof.
  intros HT Hij. pose proof (decay_ratio_mono i j T HT Hij) as Hr.
  unfold extra_var, Np.square.
  apply Rmult_le_compat_l; [nra|].
  apply Rle_max_compat_r. lra.
Qed.

Lemma extra_var_zero (extra_std : R) (itr : nat) (T : R) :
  0 < T -> T <= INR itr ->
  extra_var extra_std (Rmax (1 - INR itr / T) 0) = 0.
Proof.
  intros HT Hge.
  assert (H1 : 1 <= INR itr / T).
  { apply Rmult_le_reg_r with T; [exact HT|]. field_simplify; lra. }
  unfold extra_var. rewrite Rmax_right by lra. ring.
Qed.

Lemma train_itr_sample_std (run_collect : nat -> Z -> Args.t -> list Info)
      (self : CEM.t) (n_best : Z) (itr : nat) (st st' : State) (lg : IterLog) :
  train_itr run_collect self n_best itr st = Ok (st', lg) ->
  log_itr lg = itr
  /\ log_sample_std lg
     = map (fun s =>
              sqrt (s * s
                    + CEM.extra_std self * CEM.extra_std self
                      * Rmax (1 - INR itr / CEM.extra_decay_time self) 0))
           (cur_std st).
Proof.
  unfold train_itr, extra_var_mult.
  destruct (Req_dec_T (CEM.extra_decay_time self) 0); [discriminate|].
  simpl bind at 1.
  destruct (update n_best _) as [u|e]; [|discriminate].
  simpl. intros [= <- <-]. simpl. split; reflexivity.
Qed.

(** C4, as the code has it.  For every iteration index i the multiplier is
    max(1 - i/extra_decay_time, 0) (extra_decay_time not 0), the sampling std
    of an iteration that ran is
    sqrt(cur_std^2 + extra_std^2 * max(1 - i/extra_decay_time, 0))
    elementwise, and the extra-variance term is non-negative; for a positive
    extra_decay_time the term does not increase with i and is exactly 0 for
    every i >= extra_decay_time. *)
Theorem exploration_schedule (extra_std T : R) :
  (T <> 0 -> forall i, extra_var_mult i T = Ok (Rmax (1 - INR i / T) 0))
  /\ (forall run_collect self n_best i st st' lg,
        CEM.extra_decay_time self = T -> CEM.extra_std self = extra_std ->
        train_itr run_collect self n_best i st = Ok (st', lg) ->
        log_sample_std lg
        = map (fun s =>
                 sqrt (s * s + extra_std * extra_std * Rmax (1 - INR i / T) 0))
              (cur_std st))
  /\ (forall i, 0 <= extra_var extra_std (Rmax (1 - INR i / T) 0))
  /\ (0 < T -> forall i j, (i <= j)%nat ->
        extra_var extra_std (Rmax (1 - INR j / T) 0)
        <= extra_var extra_std (Rmax (1 - INR i / T) 0))
  /\ (0 < T -> forall i, T <= INR i ->
        extra_var extra_std (Rmax (1 - INR i / T) 0) = 0).
Proof.
  split; [|split; [|split; [|split]]].
  - intros HT i. now apply extra_var_mult_ok.
  - intros run_collect self n_best i st st' lg <- <- H.
    now apply train_itr_sample_std in H.
  - intros i. apply extra_var_nonneg.
  - intros HT i j Hij. now apply extra_var_mono.
  - intros HT i Hi. now apply extra_var_zero.
Qed.

Lemma exploration_schedule_witness :
  extra_var 1 (Rmax (1 - INR 100 / 100) 0) = 0.
Proof.
  apply (exploration_schedule 1 100).
  - lra.
  - rewrite INR_IZR_INZ. simpl. lra.
Defined.

(** C4, as first stated (no condition on extra_decay_time), fails: with
    extra_decay_time = -1 the multiplier is 1 at iteration 0 and 2 at
    iteration 1, so the extra variance grows, and it is not 0 although
    1 >= extra_decay_time; with extra_decay_time = 0 there is no sampling
    std at all, the division raising [ZeroDivisionError]. *)
Lemma exploration_schedule_negative_decay_time :
  extra_var_mult 0 (-1) = Ok 1
  /\ extra_var_mult 1 (-1) = Ok 2
  /\ ~ (forall (extra_std T : R) (i j : nat), (i <= j)%nat ->
          extra_var extra_std (Rmax (1 - INR j / T) 0)
          <= extra_var extra_std (Rmax (1 - INR i / T) 0))
  /\ ~ (forall (extra_std T : R) (i : nat), T <= INR i ->
          extra_var extra_std (Rmax (1 - INR i / T) 0) = 0)
  /\ extra_var_mult 1 0 = Raise ZeroDivisionError.
Proof.
  assert (E0 : Rmax (1 - INR 0 / -1) 0 = 1).
  { simpl. rewrite Rmax_left; lra. }
  assert (E1 : Rmax (1 - INR 1 / -1) 0 = 2).
  { simpl. rewrite Rmax_left; lra. }
  split; [|split; [|split; [|split]]].
  - rewrite extra_var_mult_ok by lra. now rewrite E0.
  - rewrite extra_var_mult_ok by lra. now rewrite E1.
  - intros H. specialize (H 1 (-1) 0%nat 1%nat (Nat.le_succ_diag_r 0)).
    rewrite E0, E1 in H. unfold extra_var, Np.square in H. lra.
  - intros H. specialize (H 1 (-1) 1%nat). rewrite E1 in H.
    unfold extra_var, Np.square in H. simpl in H. lra.
  - unfold extra_var_mult. destruct (Req_dec_T 0 0); [reflexivity | lra].
Qed.

(** ** Ranking *)

Lemma key_le_total (a b : option R) : key_le a b = false -> key_le b a = true.
Proof.
  destruct a as [u|], b as [v|]; simpl; try congruence.
  destruct (Rle_dec u v); [congruence|]. intros _.
  destruct (Rle_dec v u); [reflexivity | lra].
Qed.

Lemma key_le_trans (a b c : option R) :
  key_le a b = true -> key_le b c = true -> key_le a c = true.
Proof.
  destruct a as [u|], b as [v|], c as [w|]; simpl; try congruence.
  destruct (Rle_dec u v), (Rle_dec v w), (Rle_dec u w);
    try congruence; lra.
Qed.

Lemma key_le_neg (a b : option R) :
  key_le (option_map Ropp a) (option_map Ropp b) = true <-> fitness_ge a b.
Proof.
  destruct a as [u|], b as [v|]; simpl; try tauto.
  - destruct (Rle_dec (- u) (- v)); split; intros; try congruence; lra.
  - split; [congruence | tauto].
Qed.

Section Ranking.

Variable key : nat -> option R.

Local Abbreviation ranked := (fun i j : nat => key_le (key i) (key j) = true).

Lemma insert_by_perm (i : nat) (l : list nat) :
  Permutation (insert_by key i l) (i :: l).
Proof.
  induction l as [|j l IH]; simpl; [reflexivity|].
  destruct (key_le (key i) (key j)); [reflexivity|].
  rewrite IH. apply perm_swap.
Qed.

Lemma insert_by_sorted (i : nat) (l : list nat) :
  StronglySorted ranked l -> StronglySorted ranked (insert_by key i l).
Proof.
  induction 1 as [|j l Hs IH Hj]; simpl.
  - constructor; constructor.
  - destruct (key_le (key i) (key j)) eqn:E.
    + constructor; [now constructor|]. constructor; [exact E|].
      apply Forall_impl with (2 := Hj). intros k Hk.
      now apply key_le_trans with (key j).
    + constructor; [exact IH|].
      apply Permutation_Forall with (i :: l);
        [symmetry; apply insert_by_perm|].
      constructor; [|exact Hj]. now apply key_le_total.
Qed.

Lemma fold_insert_perm (l : list nat) :
  Permutation (fold_right (insert_by key) [] l) l.
Proof.
  induction l as [|i l IH]; simpl; [reflexivity|].
  rewrite insert_by_perm. now constructor.
Qed.

Lemma fold_insert_sorted (l : list nat) :
  StronglySorted ranked (fold_right (insert_by key) [] l).
Proof.
  induction l as [|i l IH]; simpl; [constructor|].
  now apply insert_by_sorted.
Qed.

End Ranking.

Lemma argsort_perm (a : list (option R)) :
  Permutation (argsort a) (seq 0 (length a)).
Proof. apply fold_insert_perm. Qed.

Lemma argsort_sorted (a : list (option R)) :
  StronglySorted (fun i j => key_le (nth i a None) (nth j a None) = true)
                 (argsort a).
Proof. apply (fold_insert_sorted (fun i => nth i a None)). Qed.

Lemma neg_nth (fs : list (option R)) (i : nat) :
  nth i (neg fs) None = option_map Ropp (nth i fs None).
Proof. unfold neg. now rewrite <- (map_nth (option_map Ropp)). Qed.

Lemma StronglySorted_impl {A : Type} (P Q : A -> A -> Prop) (l : list A) :
  (forall a b, P a b -> Q a b) -> StronglySorted P l -> StronglySorted Q l.
Proof.
  intros HPQ. induction 1 as [|a l Hs IH Ha]; constructor; [exact IH|].
  apply Forall_impl with (2 := Ha). auto.
Qed.

(** The indices of [(-fs).argsort()] are those of [fs], each once, in
    descending order of fitness. *)
Lemma argsort_neg_ranks (fs : list (option R)) :
  Permutation (argsort (neg fs)) (seq 0 (length fs))
  /\ StronglySorted (fun i j => fitness_ge (nth i fs None) (nth j fs None))
                    (argsort (neg fs)).
Proof.
  split.
  - replace (length fs) with (length (neg fs))
      by (unfold neg; apply length_map).
    apply argsort_perm.
  - apply StronglySorted_impl with (2 := argsort_sorted (neg fs)).
    intros i j. rewrite !neg_nth. apply key_le_neg.
Qed.

Lemma fitness_ge_refl (a : option R) : fitness_ge a a.
Proof. destruct a; simpl; [lra | exact I]. Qed.

Lemma fitness_total (paths : list ResultPath.t) :
  Forall (fun p => ResultPath.returns p <> []) paths ->
  fitness paths = Ok (map (fun p => hd None (ResultPath.returns p)) paths).
Proof.
  induction 1 as [|p paths Hp _ IH]; [reflexivity|].
  simpl. unfold first_return.
  destruct (ResultPath.returns p) as [|f r]; [congruence|].
  simpl. now rewrite IH.
Qed.

Lemma map_seq_nth {A : Type} (f : nat -> A) (n j : nat) (d : A) :
  (j < n)%nat -> nth j (map f (seq 0 n)) d = f j.
Proof.
  intros Hj. rewrite nth_indep with (d' := f 0%nat)
    by now rewrite length_map, length_seq.
  now rewrite map_nth, seq_nth.
Qed.

(** ** C1: the distribution update *)

Ltac decide_Rle :=
  repeat (match goal with
          | |- context [Rle_dec ?a ?b] =>
              destruct (Rle_dec a b); [try lra | try lra]
          end; cbn [insert_by key_le]).

Lemma argsort_example :
  argsort (neg [Some 3; Some 1; Some 4; Some 1]) = [2; 0; 1; 3]%nat.
Proof.
  unfold argsort, neg.
  cbn [map option_map length seq fold_right nth insert_by key_le].
  decide_Rle. reflexivity.
Qed.

Lemma update_selects (n_best : Z) (infos : list Info) :
  (1 <= n_best)%Z -> infos <> [] ->
  Forall (fun info => ResultPath.returns (snd info) <> []) infos ->
  let xs := map fst infos in
  let fs := map (fun info => hd None (ResultPath.returns (snd info))) infos in
  let inds := argsort (neg fs) in
  let best_xs := map (fun i => nth i xs []) (firstn (Z.to_nat n_best) inds) in
  inds <> []
  /\ update n_best infos
     = Ok {| best_inds := firstn (Z.to_nat n_best) inds;
             new_mean := mean_axis0 best_xs;
             new_std := std_axis0 best_xs;
             best_x := nth (hd 0%nat inds) xs [] |}.
Proof.
  intros Hn Hne Hret xs fs inds best_xs.
  assert (Hfit : fitness (map snd infos) = Ok fs).
  { rewrite fitness_total by (apply Forall_map; exact Hret).
    unfold fs. now rewrite map_map. }
  assert (Hinds : inds <> []).
  { intros E. pose proof (proj1 (argsort_neg_ranks fs)) as Hp. fold inds in Hp.
    rewrite E in Hp. apply Permutation_length in Hp.
    rewrite length_seq in Hp. unfold fs in Hp. rewrite length_map in Hp.
    destruct infos; [congruence | discriminate]. }
  split; [exact Hinds|].
  unfold update. rewrite Hfit. simpl bind. fold xs inds.
  subst best_xs. destruct (Z.to_nat n_best) as [|m] eqn:Em; [lia|].
  destruct inds as [|top rest]; [congruence|]. reflexivity.
Qed.

Lemma axis0_entries (rows : list (list R)) :
  length (mean_axis0 rows) = ncols rows
  /\ length (std_axis0 rows) = ncols rows
  /\ forall j, (j < ncols rows)%nat ->
       nth j (mean_axis0 rows) 0 = Spec.mean (column j rows)
       /\ nth j (std_axis0 rows) 0 = Spec.std_population (column j rows).
Proof.
  unfold mean_axis0, std_axis0. rewrite !length_map, length_seq.
  split; [reflexivity|]. split; [reflexivity|]. intros j Hj.
  rewrite !map_seq_nth by exact Hj.
  now rewrite np_mean_of_spec, np_std_of_population.
Qed.

Lemma sorted_head_is_top (fs : list (option R)) (inds : list nat) (n : nat) :
  Permutation inds (seq 0 n) ->
  StronglySorted (fun i j => fitness_ge (nth i fs None) (nth j fs None)) inds ->
  forall i, (i < n)%nat ->
    fitness_ge (nth (hd 0%nat inds) fs None) (nth i fs None).
Proof.
  intros Hp Hs i Hi.
  assert (Hin : In i inds).
  { apply Permutation_in with (seq 0 n); [now symmetry|].
    apply in_seq. lia. }
  destruct Hs as [|top rest _ Htop]; [contradiction|].
  simpl. destruct Hin as [<- | Hin]; [apply fitness_ge_refl|].
  rewrite Forall_forall in Htop. now apply Htop.
Qed.

Lemma fitness_length (paths : list ResultPath.t) (fs : list (option R)) :
  fitness paths = Ok fs -> length fs = length paths.
Proof.
  revert fs. induction paths as [|p paths IH]; intros fs; simpl.
  - now intros [= <-].
  - destruct (first_return p) as [f|e]; [|discriminate]. simpl bind at 1.
    destruct (fitness paths) as [fs'|e]; [|discriminate]. simpl.
    intros [= <-]. simpl. now rewrite (IH fs').
Qed.

Lemma update_inv (n_best : Z) (infos : list Info) (u : Update) :
  update n_best infos = Ok u ->
  exists fs top rest m,
    fitness (map snd infos) = Ok fs
    /\ argsort (neg fs) = top :: rest
    /\ Z.to_nat n_best = S m
    /\ best_inds u = top :: firstn m rest
    /\ new_mean u
       = mean_axis0 (map (fun i => nth i (map fst infos) [])
                         (top :: firstn m rest))
    /\ new_std u
       = std_axis0 (map (fun i => nth i (map fst infos) [])
                        (top :: firstn m rest))
    /\ best_x u = nth top (map fst infos) [].
Proof.
  unfold update.
  destruct (fitness (map snd infos)) as [fs|e] eqn:Ef; [|discriminate].
  simpl bind.
  destruct (Z.to_nat n_best) as [|m] eqn:Em; [discriminate|].
  destruct (argsort (neg fs)) as [|top rest] eqn:Ea; [discriminate|].
  simpl. intros [= <-]. exists fs, top, rest, m. simpl.
  repeat split; assumption || reflexivity.
Qed.

(** The reductions along axis 0 of an array whose first row is [row]: one
    entry per column of that row, each the reduction of the column's
    values. *)
Lemma axis0_refit (row : list R) (rest : list (list R)) :
  length (mean_axis0 (row :: rest)) = length row
  /\ length (std_axis0 (row :: rest)) = length row
  /\ forall j, (j < length row)%nat ->
       nth j (mean_axis0 (row :: rest)) 0
       = Spec.mean (map (fun r => nth j r 0) (row :: rest))
       /\ nth j (std_axis0 (row :: rest)) 0
          = Spec.std_population (map (fun r => nth j r 0) (row :: rest)).
Proof. exact (axis0_entries (row :: rest)). Qed.

Lemma update_refit (n_best : Z) (infos : list Info) (u : Update) :
  update n_best infos = Ok u ->
  exists top others,
    best_inds u = top :: others
    /\ (top < length infos)%nat
    /\ best_x u = nth top (map fst infos) []
    /\ length (new_mean u) = length (best_x u)
    /\ length (new_std u) = length (best_x u)
    /\ forall j, (j < length (best_x u))%nat ->
         nth j (new_mean u) 0
         = Spec.mean (map (fun i => nth j (nth i (map fst infos) []) 0)
                          (best_inds u))
         /\ nth j (new_std u) 0
            = Spec.std_population
                (map (fun i => nth j (nth i (map fst infos) []) 0)
                     (best_inds u)).
Proof.
  intros Hu.
  destruct (update_inv _ _ _ Hu)
    as (fs & top & rest & m & Hf & Ha & _ & Hb & Hmean & Hstd & Hx).
  exists top, (firstn m rest). split; [exact Hb|].
  split.
  { destruct (argsort_neg_ranks fs) as (Hp & _). rewrite Ha in Hp.
    assert (Hin : In top (seq 0 (length fs)))
      by (apply (Permutation_in _ Hp); now left).
    apply in_seq in Hin. rewrite (fitness_length _ _ Hf) in Hin.
    rewrite length_map in Hin. exact (proj2 Hin). }
  split; [exact Hx|].
  rewrite Hmean, Hstd, Hx, Hb. cbn [map].
  destruct (axis0_refit (nth top (map fst infos) [])
              (map (fun i => nth i (map fst infos) []) (firstn m rest)))
    as (Hl1 & Hl2 & Hent).
  split; [exact Hl1|]. split; [exact Hl2|].
  intros j Hj. destruct (Hent j Hj) as (Em & Es).
  rewrite Em, Es. cbn [map]. rewrite !map_map. split; reflexivity.
Qed.

(** C1.  On a batch of parameter vectors with their aggregated
    discounted-return vectors, the update ranks the samples by the first
    entry of each returns vector in descending order, keeps the indices of
    the top n_best, takes as new mean the elementwise mean of the selected
    parameter vectors and as new std their elementwise population standard
    deviation, and the iteration installs the top-ranked parameter vector,
    a vector of the batch, in the policy.  For fitness values [3,1,4,1] and
    n_best = 2 the survivors are the samples 2 and 0, in that order: the
    new mean is the half sum of their vectors, entry by entry, the new std
    the root of the mean squared deviation from it, and the vector of
    sample 2 goes into the policy. *)
Theorem update_ranks_and_refits :
  (forall (n_best : Z) (infos : list Info),
      (1 <= n_best)%Z -> infos <> [] ->
      Forall (fun info => ResultPath.returns (snd info) <> []) infos ->
      let xs := map fst infos in
      let fs := map (fun info => hd None (ResultPath.returns (snd info))) infos in
      exists inds u,
        Permutation inds (seq 0 (length infos))
        /\ StronglySorted
             (fun i j => fitness_ge (nth i fs None) (nth j fs None)) inds
        /\ (forall i, (i < length infos)%nat ->
              fitness_ge (nth (hd 0%nat inds) fs None) (nth i fs None))
        /\ update n_best infos = Ok u
        /\ best_inds u = firstn (Z.to_nat n_best) inds
        /\ (hd 0%nat inds < length infos)%nat
        /\ best_x u = nth (hd 0%nat inds) xs []
        /\ length (new_mean u) = length (best_x u)
        /\ length (new_std u) = length (best_x u)
        /\ (forall j, (j < length (best_x u))%nat ->
              nth j (new_mean u) 0
              = Spec.mean (map (fun i => nth j (nth i xs []) 0) (best_inds u))
              /\ nth j (new_std u) 0
                 = Spec.std_population
                     (map (fun i => nth j (nth i xs []) 0) (best_inds u))))
  /\ (forall run_collect self n_best itr st st' lg,
         train_itr run_collect self n_best itr st = Ok (st', lg) ->
         update n_best (log_infos lg) = Ok (log_update lg)
         /\ cur_mean st' = new_mean (log_update lg)
         /\ cur_std st' = new_std (log_update lg)
         /\ policy st' = best_x (log_update lg)
         /\ In (policy st') (map fst (log_infos lg)))
  /\ (forall x0 x1 x2 x3 p0 p1 p2 p3 t0 t1 t2 t3,
         ResultPath.returns p0 = Some 3 :: t0 ->
         ResultPath.returns p1 = Some 1 :: t1 ->
         ResultPath.returns p2 = Some 4 :: t2 ->
         ResultPath.returns p3 = Some 1 :: t3 ->
         exists u,
           update 2 [(x0, p0); (x1, p1); (x2, p2); (x3, p3)] = Ok u
           /\ best_inds u = [2; 0]%nat
           /\ best_x u = x2
           /\ length (new_mean u) = length x2
           /\ length (new_std u) = length x2
           /\ forall j, (j < length x2)%nat ->
                nth j (new_mean u) 0 = (nth j x2 0 + nth j x0 0) / 2
                /\ nth j (new_std u) 0
                   = sqrt (((nth j x2 0 - (nth j x2 0 + nth j x0 0) / 2) ^ 2
                            + (nth j x0 0 - (nth j x2 0 + nth j x0 0) / 2) ^ 2)
                           / 2)).
Proof.
  split; [|split].
  - intros n_best infos Hn Hne Hret xs fs.
    destruct (update_selects n_best infos Hn Hne Hret) as (Hinds & Hu).
    destruct (argsort_neg_ranks fs) as (Hp & Hs).
    assert (Hlen : length fs = length infos) by apply length_map.
    rewrite Hlen in Hp.
    destruct (update_refit _ _ _ Hu)
      as (top & others & _ & _ & _ & Hl1 & Hl2 & Hent).
    exists (argsort (neg fs)). eexists.
    split; [exact Hp|]. split; [exact Hs|].
    split; [now apply sorted_head_is_top|].
    split; [exact Hu|].
    split; [reflexivity|].
    split.
    { assert (Hin : In (hd 0%nat (argsort (neg fs))) (argsort (neg fs))).
      { destruct (argsort (neg fs)) as [|top0 rest0] eqn:Ea;
          [now elim Hinds | now left]. }
      apply (Permutation_in _ Hp) in Hin. apply in_seq in Hin.
      exact (proj2 Hin). }
    split; [reflexivity|].
    split; [exact Hl1|]. split; [exact Hl2 | exact Hent].
  - intros run_collect self n_best itr st st' lg H.
    unfold train_itr in H.
    destruct (extra_var_mult itr _) as [mult|e]; [|discriminate].
    simpl bind in H at 1.
    destruct (update n_best _) as [u|e] eqn:Eu; [|discriminate].
    simpl in H. injection H as <- <-. simpl. rewrite Eu.
    repeat split.
    destruct (update_refit _ _ _ Eu) as (top & others & _ & Htop & Hx & _).
    rewrite Hx. apply nth_In. now rewrite length_map.
  - intros x0 x1 x2 x3 p0 p1 p2 p3 t0 t1 t2 t3 H0 H1 H2 H3.
    assert (Hu : update 2 [(x0, p0); (x1, p1); (x2, p2); (x3, p3)]
                 = Ok {| best_inds := [2; 0]%nat;
                         new_mean := mean_axis0 [x2; x0];
                         new_std := std_axis0 [x2; x0];
                         best_x := x2 |}).
    { unfold update. cbn [map snd fitness]. unfold first_return.
      rewrite H0, H1, H2, H3. cbn [bind]. rewrite argsort_example.
      reflexivity. }
    eexists. split; [exact Hu|].
    cbn [best_inds new_mean new_std best_x].
    split; [reflexivity|]. split; [reflexivity|].
    destruct (axis0_refit x2 [x0]) as (Hl1 & Hl2 & Hent).
    split; [exact Hl1|]. split; [exact Hl2|].
    intros j Hj. destruct (Hent j Hj) as (Em & Es). rewrite Em, Es.
    unfold Spec.std_population, Spec.sq_dev, Spec.mean, Spec.total.
    cbn [map fold_right length INR].
    split; [field | f_equal; field].
Qed.

Lemma update_ranks_and_refits_witness :
  exists u,
    update 2 [([1; 2], ResultPath.mk [] None [Some 3]);
              ([0; 0], ResultPath.mk [] None [Some 1]);
              ([3; 6], ResultPath.mk [] None [Some 4]);
              ([0; 0], ResultPath.mk [] None [Some 1])] = Ok u
    /\ best_inds u = [2; 0]%nat
    /\ best_x u = [3; 6]
    /\ length (new_std u) = 2%nat
    /\ nth 0 (new_mean u) 0 = (3 + 1) / 2
    /\ nth 1 (new_mean u) 0 = (6 + 2) / 2.
Proof.
  destruct (proj2 (proj2 update_ranks_and_refits)
              [1; 2] [0; 0] [3; 6] [0; 0]
              (ResultPath.mk [] None [Some 3]) (ResultPath.mk [] None [Some 1])
              (ResultPath.mk [] None [Some 4]) (ResultPath.mk [] None [Some 1])
              [] [] [] [])
    as (u & Hu & Hb & Hx & _ & Hl & Hent); try reflexivity.
  exists u. split; [exact Hu|]. split; [exact Hb|]. split; [exact Hx|].
  split; [exact Hl|].
  destruct (Hent 0%nat) as (Hm0 & _); [simpl; lia|].
  destruct (Hent 1%nat) as (Hm1 & _); [simpl; lia|].
  split; [exact Hm0 | exact Hm1].
Defined.

(** ** What an iteration leaves behind *)

Lemma train_itr_inv (run_collect : nat -> Z -> Args.t -> list Info)
      (self : CEM.t) (n_best : Z) (itr : nat) (st st' : State) (lg : IterLog) :
  train_itr run_collect self n_best itr st = Ok (st', lg) ->
  update n_best (log_infos lg) = Ok (log_update lg)
  /\ cur_mean st' = new_mean (log_update lg)
  /\ cur_std st' = new_std (log_update lg)
  /\ policy st' = best_x (log_update lg)
  /\ log_criterion lg = fst (dispatch self)
  /\ log_threshold lg = snd (dispatch self).
Proof.
  unfold train_itr. intros H.
  destruct (extra_var_mult itr _) as [mult|e]; [|discriminate].
  simpl bind in H at 1.
  destruct (update n_best _) as [u|e] eqn:Eu; [|discriminate].
  simpl in H. injection H as <- <-. simpl. now rewrite Eu.
Qed.

Lemma train_itr_total (run_collect : nat -> Z -> Args.t -> list Info)
      (self : CEM.t) (n_best : Z) (itr : nat) (st : State) :
  CEM.extra_decay_time self <> 0 -> (1 <= n_best)%Z ->
  (forall thr a, run_collect itr thr a <> []
                 /\ Forall (fun info => ResultPath.returns (snd info) <> [])
                           (run_collect itr thr a)) ->
  exists st' lg, train_itr run_collect self n_best itr st = Ok (st', lg).
Proof.
  intros HT Hn Hrc. unfold train_itr.
  rewrite extra_var_mult_ok by exact HT. simpl bind at 1.
  match goal with
  | |- context [update n_best ?b] =>
      destruct (Hrc (snd (dispatch self))
                    (Args.mk (cur_mean st)
                       (sample_std_of (cur_std st) (CEM.extra_std self)
                          (Rmax (1 - INR itr / CEM.extra_decay_time self) 0))
                       (CEM.max_path_length self) (CEM.discount self)
                       (fst (dispatch self)) (CEM.n_evals self)))
        as (Hne & Hret);
      destruct (update_selects n_best b Hn Hne Hret) as (_ & Hu);
      rewrite Hu
  end.
  simpl. eauto.
Qed.

Lemma train_loop_logs (run_collect : nat -> Z -> Args.t -> list Info)
      (self : CEM.t) (n_best : Z) (itrs : list nat) (st : State) :
  Forall (fun lg => exists itr st0 st1,
              train_itr run_collect self n_best itr st0 = Ok (st1, lg))
         (fst (train_loop run_collect self n_best itrs st)).
Proof.
  revert st. induction itrs as [|itr rest IH]; intros st; simpl.
  - constructor.
  - destruct (train_itr run_collect self n_best itr st) as [[st' lg]|e] eqn:E.
    + simpl. constructor; [eauto | apply IH].
    + constructor.
Qed.

Lemma update_best_inds (n_best : Z) (infos : list Info) (u : Update) :
  update n_best infos = Ok u ->
  exists fs, fitness (map snd infos) = Ok fs
             /\ best_inds u = firstn (Z.to_nat n_best) (argsort (neg fs))
             /\ length (best_inds u)
                = Nat.min (Z.to_nat n_best) (length infos).
Proof.
  unfold update. destruct (fitness (map snd infos)) as [fs|e] eqn:Ef;
    [|discriminate].
  simpl bind. destruct (map _ (firstn _ _)) as [|bx rest] eqn:Eb;
    [discriminate|].
  intros [= <-]. simpl. exists fs. split; [reflexivity|].
  split; [reflexivity|].
  rewrite length_firstn. f_equal.
  rewrite (Permutation_length (argsort_perm (neg fs))), length_seq.
  unfold neg. rewrite length_map, (fitness_length _ _ Ef).
  apply length_map.
Qed.

(** ** C8: a single survivor *)











(** ** C9: one survivor count for the whole run *)

Lemma py_int_unique (r : R) (z : Z) :
  0 <= r -> IZR z <= r < IZR z + 1 -> py_int r = z.
Proof.
  intros Hr Hz. pose proof (py_int_floor r Hr) as Hf.
  assert (H1 : IZR z < IZR (py_int r + 1)) by (rewrite plus_IZR; simpl; lra).
  assert (H2 : IZR (py_int r) < IZR (z + 1)) by (rewrite plus_IZR; simpl; lra).
  apply lt_IZR in H1, H2. lia.
Qed.

Lemma train_first_iteration (run_collect : nat -> Z -> Args.t -> list Info)
      (self : CEM.t) (param_values : list R) :
  CEM.n_itr self = 1%nat -> CEM.extra_decay_time self <> 0 ->
  (forall thr a, run_collect 0%nat thr a <> []
                 /\ Forall (fun info => ResultPath.returns (snd info) <> [])
                           (run_collect 0%nat thr a)) ->
  exists lg, fst (train run_collect self param_values) = [lg].
Proof.
  intros Hn HT Hrc. unfold train. rewrite Hn. simpl.
  match goal with
  | |- context [train_itr run_collect self ?nb 0%nat ?st] =>
      destruct (train_itr_total run_collect self nb 0%nat st HT)
        as (st' & lg & E); [unfold n_best_of; lia | exact Hrc |];
      rewrite E
  end.
  simpl. eauto.
Qed.

(** C9.  [train] computes n_best once, from n_samples and best_frac, before
    the loop: every completed iteration of a run applies the update with
    that one value, so keeps min(n_best, batch length) survivors, whether
    batch_size is set or not.  With batch_size unset the dispatch is by
    "paths" up to n_samples; with batch_size set it is by "samples" up to
    batch_size, and the survivor count still comes from n_samples: two runs
    in batch-size mode that differ in n_samples alone can keep different
    numbers of survivors. *)
Theorem n_best_fixed_for_the_run :
  (forall run_collect self param_values,
      let n_best := n_best_of (CEM.n_samples self) (CEM.best_frac self) in
      Forall (fun lg =>
                update n_best (log_infos lg) = Ok (log_update lg)
                /\ length (best_inds (log_update lg))
                   = Nat.min (Z.to_nat n_best) (length (log_infos lg))
                /\ (CEM.batch_size self = None ->
                    log_criterion lg = "paths"%string
                    /\ log_threshold lg = CEM.n_samples self)
                /\ (forall b, CEM.batch_size self = Some b ->
                      log_criterion lg = "samples"%string
                      /\ log_threshold lg = b))
             (fst (train run_collect self param_values)))
  /\ (exists run_collect param_values n n',
         let self := fun n_samples =>
           CEM.mk 1 10 (1 / 2) 1 n_samples (Some 5%Z) (1 / 20) 1 100 1 in
         map (fun lg => length (best_inds (log_update lg)))
             (fst (train run_collect (self n) param_values)) = [1%nat]
         /\ map (fun lg => length (best_inds (log_update lg)))
                (fst (train run_collect (self n') param_values)) = [2%nat]).
Proof.
  split.
  - intros run_collect self param_values n_best. unfold train. fold n_best.
    apply Forall_impl with (2 := train_loop_logs _ _ _ _ _).
    intros lg (itr & st0 & st1 & H).
    destruct (train_itr_inv _ _ _ _ _ _ _ H) as (Hu & _ & _ & _ & Hc & Ht).
    destruct (update_best_inds _ _ _ Hu) as (fs & _ & _ & Hlen).
    split; [exact Hu|]. split; [exact Hlen|].
    unfold dispatch in Hc, Ht. split.
    + intros Hb. rewrite Hb in Hc, Ht. now split.
    + intros b Hb. rewrite Hb in Hc, Ht. now split.
  - pose (batch := [([1; 2], ResultPath.mk [] None [Some 5]);
                    ([3; 4], ResultPath.mk [] None [Some 7])]).
    exists (fun _ _ _ => batch), [0; 0], 20%Z, 40%Z. intros self.
    assert (Hrc : forall (thr : Z) (a : Args.t),
               batch <> []
               /\ Forall (fun info => ResultPath.returns (snd info) <> [])
                         batch).
    { intros _ _. split; [discriminate|]. repeat constructor; discriminate. }
    assert (Hrun : forall n k,
               n_best_of n (1 / 20) = Z.of_nat k -> (k <= 2)%nat ->
               map (fun lg => length (best_inds (log_update lg)))
                   (fst (train (fun _ _ _ => batch) (self n) [0; 0])) = [k]).
    { intros n k Hk Hle.
      destruct (train_first_iteration (fun _ _ _ => batch) (self n) [0; 0])
        as (lg & E); [reflexivity | simpl; lra | exact Hrc |].
      pose proof (train_loop_logs (fun _ _ _ => batch) (self n)
                    (n_best_of n (1 / 20)) (seq 0 1)
                    {| cur_mean := [0; 0]; cur_std := [1]; policy := [0; 0] |})
        as Hlogs.
      change (fst (train_loop _ _ _ _ _))
        with (fst (train (fun _ _ _ => batch) (self n) [0; 0])) in Hlogs.
      rewrite E in Hlogs |- *. inversion Hlogs as [|? ? (itr & st0 & st1 & H) _].
      destruct (train_itr_inv _ _ _ _ _ _ _ H) as (Hu & _).
      destruct (update_best_inds _ _ _ Hu) as (fs & _ & _ & Hlen).
      simpl. rewrite Hlen, Hk, Nat2Z.id.
      assert (Hb : log_infos lg = batch).
      { unfold train_itr in H.
        destruct (extra_var_mult itr _); [|discriminate].
        simpl bind in H at 1.
        destruct (update _ _); [|discriminate].
        simpl in H. now injection H as _ <-. }
      rewrite Hb. simpl length. f_equal. lia. }
    split; apply Hrun; try lia; unfold n_best_of.
    + rewrite (py_int_unique _ 1); [reflexivity | lra | simpl; lra].
    + rewrite (py_int_unique _ 2); [reflexivity | lra | simpl; lra].
Qed.

Lemma n_best_fixed_for_the_run_witness :
  Forall (fun lg =>
            length (best_inds (log_update lg))
            = Nat.min (Z.to_nat (n_best_of 40 (1 / 20))) (length (log_infos lg))
            /\ log_criterion lg = "samples"%string
            /\ log_threshold lg = 5%Z)
         (fst (train (fun _ _ _ => [([1; 2], ResultPath.mk [] None [Some 5])])
                     (CEM.mk 3 10 (1 / 2) 1 40 (Some 5%Z) (1 / 20) 1 100 1)
                     [0; 0])).
Proof.
  apply Forall_impl
    with (2 := proj1 n_best_fixed_for_the_run
                 (fun _ _ _ => [([1; 2], ResultPath.mk [] None [Some 5])])
                 (CEM.mk 3 10 (1 / 2) 1 40 (Some 5%Z) (1 / 20) 1 100 1)
                 [0; 0]).
  intros lg (_ & Hlen & _ & Hb). split; [exact Hlen|].
  apply (Hb 5%Z). reflexivity.
Defined.

(** * Further properties of the estimators *)

Lemma col_n_counts (x : list (list R)) (t : nat) :
  (t < max_len x)%nat -> col_n (nth t (zip_longest x) []) = Spec.n_at t x.
Proof.
  intros Ht.
  now rewrite col_n_drop_nan, zip_longest_nth, drop_nan_column, reaching_length.
Qed.

Lemma n_at_mono (x : list (list R)) (t t' : nat) :
  (t <= t')%nat -> (Spec.n_at t' x <= Spec.n_at t x)%nat.
Proof.
  intros Ht. unfold Spec.n_at. induction x as [|s x IH]; [reflexivity|].
  simpl. destruct (t' <? length s)%nat eqn:E'.
  - apply Nat.ltb_lt in E'.
    assert (E : (t <? length s)%nat = true) by (apply Nat.ltb_lt; lia).
    rewrite E. simpl. lia.
  - destruct (t <? length s)%nat; simpl; lia.
Qed.

(** X4.  Along the output of the varying-length estimator the number of
    contributing samples counted by the code never grows: a later index is
    reached by no more samples than an earlier one. *)
Theorem varyinglens_counts_decrease (x : list (list R)) (t t' : nat)
        (Hle : (t <= t')%nat) (Hlt : (t' < max_len x)%nat) :
  (col_n (nth t' (zip_longest x) []) <= col_n (nth t (zip_longest x) []))%nat.
Proof.
  rewrite !col_n_counts by lia. now apply n_at_mono.
Qed.

Lemma varyinglens_counts_decrease_witness :
  (col_n (nth 1 (zip_longest [[1; 2]; [3]]%R) [])
   <= col_n (nth 0 (zip_longest [[1; 2]; [3]]%R) []))%nat.
Proof.
  apply (varyinglens_counts_decrease [[1; 2]; [3]] 0 1); simpl; lia.
Defined.

(** X5.  A batch of one sequence is returned as it is: every entry of the
    estimate is the sequence's own value. *)
Theorem varyinglens_single_sample (s : list R) :
  _get_stderr_lb_varyinglens [s] = map Some s.
Proof.
  assert (Hmax : max_len [s] = length s) by (simpl; lia).
  apply nth_error_ext. intros t.
  destruct (Nat.lt_ge_cases t (length s)) as [Ht | Ht].
  - rewrite varyinglens_nth by (rewrite Hmax; exact Ht).
    rewrite nth_error_map. unfold Spec.reaching. simpl.
    apply Nat.ltb_lt in Ht as Hb. rewrite Hb.
    apply Nat.ltb_lt in Hb. rewrite (nth_error_nth' s 0 Hb). simpl.
    rewrite get_stderr_lb_spec by (simpl; lia).
    rewrite (stderr_lb_const (nth t s 0));
      [reflexivity | discriminate | now constructor].
  - rewrite (proj2 (nth_error_None _ _))
      by (rewrite varyinglens_length, Hmax; exact Ht).
    symmetry. apply nth_error_None. now rewrite length_map.
Qed.

(** X6.  At an index that every sample of a non-empty batch reaches, the
    varying-length estimate is the scalar estimator applied to the values
    of all samples at that index. *)
Theorem varyinglens_full_column (x : list (list R)) (t : nat)
        (Hx : x <> []) (Hall : Forall (fun s => (t < length s)%nat) x) :
  nth_error (_get_stderr_lb_varyinglens x) t
  = Some (_get_stderr_lb (map (fun s => nth t s 0) x)).
Proof.
  assert (Ht : (t < max_len x)%nat).
  { destruct x as [|s x]; [congruence|].
    inversion Hall as [|? ? Hs _]; subst.
    pose proof (max_len_upper (s :: x) s (or_introl eq_refl)). lia. }
  rewrite varyinglens_nth by exact Ht. do 2 f_equal.
  unfold Spec.reaching. f_equal.
  clear Hx Ht. induction Hall as [|s x Hs _ IH]; [reflexivity|].
  simpl. apply Nat.ltb_lt in Hs. rewrite Hs. now rewrite IH.
Qed.

Lemma varyinglens_full_column_witness :
  nth_error (_get_stderr_lb_varyinglens [[1; 2]; [3]]) 0
  = Some (_get_stderr_lb (map (fun s => nth 0 s 0) [[1; 2]; [3]])).
Proof.
  apply (varyinglens_full_column [[1; 2]; [3]] 0).
  - discriminate.
  - repeat constructor.
Defined.

(** * Further properties of the rollout evaluator *)

Lemma broadcast_same (f : R -> R -> R) (a b : list R) :
  length a = length b -> broadcast f a b = Ok (map2 f a b).
Proof.
  intros H. unfold broadcast. apply Nat.eqb_eq in H. now rewrite H.
Qed.

Lemma broadcast_scalar_r (f : R -> R -> R) (a : list R) (v : R) :
  broadcast f a [v] = Ok (map (fun u => f u v) a).
Proof.
  unfold broadcast. destruct a as [|u [|u' a]]; reflexivity.
Qed.

Lemma map2_nth {A B C : Type} (f : A -> B -> C) (a : list A) (b : list B)
      (j : nat) (da : A) (db : B) (d : C) :
  (j < length a)%nat -> (j < length b)%nat ->
  nth j (map2 f a b) d = f (nth j a da) (nth j b db).
Proof.
  revert b j. induction a as [|u a IH]; intros [|v b] [|j]; simpl;
    try lia; [reflexivity|].
  intros Ha Hb. apply IH; lia.
Qed.

Lemma increment_raises (crit : string) (paths : list Path.t) (e : exn) :
  increment crit paths = Raise e ->
  e = UnboundLocalError \/ e = NotImplementedError.
Proof.
  unfold increment. destruct (String.eqb crit "samples").
  - destruct (rev paths); [intros [= <-]; now left | discriminate].
  - destruct (String.eqb crit "paths"); [discriminate|].
    intros [= <-]. now right.
Qed.

Lemma worker_inv (noise : nat -> R) (rollout : list R -> nat -> nat -> list R)
      (g g' : Globals) (a : Args.t) (params : list R) (rp : ResultPath.t)
      (inc : nat) :
  _worker_rollout_policy noise rollout g a = Ok (g', ((params, rp), inc)) ->
  exists scaled,
    broadcast Rmult (standard_normal noise (length (Args.cur_mean a)))
              (Args.sample_std a) = Ok scaled
    /\ broadcast Rplus scaled (Args.cur_mean a) = Ok params
    /\ g' = {| policy_params := params |}
    /\ rp = ResultPath.mk (run_evals rollout params a)
              (_get_stderr_lb
                 (map Path.undiscounted_return (run_evals rollout params a)))
              (_get_stderr_lb_varyinglens
                 (map Path.returns (run_evals rollout params a)))
    /\ increment (Args.criterion a) (run_evals rollout params a) = Ok inc.
Proof.
  unfold _worker_rollout_policy.
  destruct (broadcast Rmult _ _) as [scaled|e]; [|discriminate].
  simpl bind at 1.
  destruct (broadcast Rplus _ _) as [params0|e] eqn:Ep; [|discriminate].
  simpl bind at 1.
  destruct (increment _ _) as [inc0|e] eqn:Ei; [|discriminate].
  simpl. intros [= <- <- <- <-]. exists scaled.
  repeat split; [exact Ep | exact Ei].
Qed.

(** X7.  A worker asked for no evaluation (n_evals = 0) raises
    [UnboundLocalError] under the tag "samples", the loop variable [path]
    never having been bound; under "paths" it returns increment 1 with no
    rollout, a nan undiscounted return and an empty returns vector. *)
Theorem worker_no_rollouts (noise : nat -> R)
        (rollout : list R -> nat -> nat -> list R) (g : Globals) (a : Args.t)
        (H0 : Args.n_evals a = 0%nat) (Hok : draw_ok a) :
  (Args.criterion a = "samples"%string ->
   _worker_rollout_policy noise rollout g a = Raise UnboundLocalError)
  /\ (Args.criterion a = "paths"%string ->
      exists params,
        _worker_rollout_policy noise rollout g a
        = Ok ({| policy_params := params |},
              ((params, ResultPath.mk [] None []), 1%nat))).
Proof.
  destruct (worker_after_draw noise rollout g a Hok) as (params & E).
  assert (Hr : run_evals rollout params a = [])
    by (unfold run_evals; now rewrite H0).
  rewrite E, Hr. split; intros ->.
  - reflexivity.
  - exists params. reflexivity.
Qed.

Lemma worker_no_rollouts_witness :
  _worker_rollout_policy (fun _ => 0) (fun _ _ _ => [1; 1])
    {| policy_params := [] |} (Args.mk [0] [1] 2 (1 / 2) "samples" 0)
  = Raise UnboundLocalError.
Proof.
  apply (worker_no_rollouts (fun _ => 0) (fun _ _ _ => [1; 1])
           {| policy_params := [] |} (Args.mk [0] [1] 2 (1 / 2) "samples" 0)).
  - reflexivity.
  - left. reflexivity.
  - reflexivity.
Defined.

(** X8.  The worker raises [ValueError] exactly when the shapes of
    [sample_std] and [cur_mean] do not broadcast: their lengths differ and
    neither is 1.  This holds for every criterion tag and every number of
    evaluations. *)
Theorem worker_shape_mismatch (noise : nat -> R)
        (rollout : list R -> nat -> nat -> list R) (g : Globals) (a : Args.t) :
  _worker_rollout_policy noise rollout g a = Raise ValueError <-> ~ draw_ok a.
Proof.
  split.
  - intros H Hok.
    destruct (worker_after_draw noise rollout g a Hok) as (params & E).
    rewrite E in H.
    destruct (increment _ _) as [inc|e] eqn:Ei; [discriminate|].
    simpl in H. injection H as ->.
    apply increment_raises in Ei. destruct Ei; discriminate.
  - intros Hno. unfold draw_ok in Hno. unfold _worker_rollout_policy.
    rewrite broadcast_mismatch; [reflexivity | | |];
      rewrite ?standard_normal_length; lia.
Qed.

(** X9.  With a single evaluation (n_evals = 1) the aggregated statistics of
    a successful worker are the rollout's own: its undiscounted return is
    the sum of the rollout's rewards and its returns vector holds the
    rollout's discounted returns, entry by entry. *)
Theorem worker_single_eval (noise : nat -> R)
        (rollout : list R -> nat -> nat -> list R) (g g' : Globals)
        (a : Args.t) (params : list R) (rp : ResultPath.t) (inc : nat)
        (H1 : Args.n_evals a = 1%nat)
        (H : _worker_rollout_policy noise rollout g a
             = Ok (g', ((params, rp), inc))) :
  exists path,
    ResultPath.full_paths rp = [path]
    /\ Path.rewards path = rollout params (Args.max_path_length a) 0%nat
    /\ ResultPath.undiscounted_return rp = Some (Np.sum (Path.rewards path))
    /\ length (ResultPath.returns rp) = length (Path.returns path)
    /\ forall t, (t < length (Path.returns path))%nat ->
         nth_error (ResultPath.returns rp) t
         = Some (Some (nth t (Path.returns path) 0)).
Proof.
  destruct (worker_inv _ _ _ _ _ _ _ _ H) as (scaled & _ & _ & _ & -> & _).
  unfold run_evals. rewrite H1. simpl map.
  eexists. split; [reflexivity|]. split; [reflexivity|]. simpl.
  split.
  - rewrite get_stderr_lb_spec by (simpl; lia).
    f_equal. apply stderr_lb_const; [discriminate | now constructor].
  - split.
    + rewrite varyinglens_length. simpl. lia.
    + intros t Ht. rewrite varyinglens_nth by (simpl; lia).
      unfold Spec.reaching. simpl. apply Nat.ltb_lt in Ht. rewrite Ht. simpl.
      rewrite get_stderr_lb_spec by (simpl; lia).
      do 2 f_equal. apply stderr_lb_const; [discriminate | now constructor].
Qed.

Lemma worker_single_eval_witness :
  exists g' params rp inc path,
    _worker_rollout_policy (fun _ => 0) (fun _ _ _ => [1; 1])
      {| policy_params := [] |} (Args.mk [0] [1] 2 (1 / 2) "paths" 1)
    = Ok (g', ((params, rp), inc))
    /\ ResultPath.full_paths rp = [path]
    /\ ResultPath.undiscounted_return rp = Some (Np.sum (Path.rewards path)).
Proof.
  destruct (worker_after_draw (fun _ => 0) (fun _ _ _ => [1; 1])
              {| policy_params := [] |} (Args.mk [0] [1] 2 (1 / 2) "paths" 1))
    as (params & E); [left; reflexivity|].
  cbn [Args.criterion increment String.eqb Ascii.eqb Bool.eqb bind] in E.
  destruct (worker_single_eval (fun _ => 0) (fun _ _ _ => [1; 1]) _ _
              (Args.mk [0] [1] 2 (1 / 2) "paths" 1) _ _ _ eq_refl E)
    as (path & Hf & _ & Hu & _).
  do 4 eexists. exists path. split; [exact E|]. split; [exact Hf | exact Hu].
Defined.

Lemma nth_all_zero (l : list R) (j : nat) :
  Forall (eq 0) l -> nth j l 0 = 0.
Proof.
  intros H. revert j. induction H as [|v l Hv _ IH]; intros [|j]; simpl;
    auto.
Qed.

(** X10.  A worker that returns has run its rollouts with exactly the
    parameter vector it reports and has left that vector in the policy
    slot.  With [sample_std] of the shape of [cur_mean], entry j of the
    vector is noise_j * sample_std_j + cur_mean_j; with a one-element
    [sample_std] the single std scales every entry.  A zero sample std
    makes the worker evaluate the current mean itself. *)
Theorem worker_draw (noise : nat -> R)
        (rollout : list R -> nat -> nat -> list R) (g g' : Globals)
        (a : Args.t) (params : list R) (rp : ResultPath.t) (inc : nat)
        (H : _worker_rollout_policy noise rollout g a
             = Ok (g', ((params, rp), inc))) :
  policy_params g' = params
  /\ ResultPath.full_paths rp = run_evals rollout params a
  /\ length (ResultPath.full_paths rp) = Args.n_evals a
  /\ (length (Args.sample_std a) = length (Args.cur_mean a) ->
      length params = length (Args.cur_mean a)
      /\ (forall j, (j < length (Args.cur_mean a))%nat ->
            nth j params 0
            = noise j * nth j (Args.sample_std a) 0
              + nth j (Args.cur_mean a) 0)
      /\ (Forall (eq 0) (Args.sample_std a) -> params = Args.cur_mean a))
  /\ (forall s, Args.sample_std a = [s] ->
        length params = length (Args.cur_mean a)
        /\ (forall j, (j < length (Args.cur_mean a))%nat ->
              nth j params 0 = noise j * s + nth j (Args.cur_mean a) 0)
        /\ (s = 0 -> params = Args.cur_mean a)).
Proof.
  destruct (worker_inv _ _ _ _ _ _ _ _ H) as (scaled & Es & Ep & -> & -> & _).
  set (k := length (Args.cur_mean a)) in *.
  pose proof (standard_normal_length noise k) as Hz.
  split; [reflexivity|]. split; [reflexivity|].
  split; [apply run_evals_length|].
  assert (Hnoise : forall j, (j < k)%nat -> nth j (standard_normal noise k) 0
                                             = noise j)
    by (intros j Hj; unfold standard_normal; now rewrite map_seq_nth).
  split.
  - intros Hlen.
    rewrite broadcast_same in Es by lia. injection Es as <-.
    rewrite broadcast_same in Ep by (rewrite map2_length; lia).
    injection Ep as <-.
    assert (Hl : length (map2 Rplus
                           (map2 Rmult (standard_normal noise k)
                                 (Args.sample_std a))
                           (Args.cur_mean a)) = k)
      by (rewrite !map2_length; lia).
    assert (Hnth : forall j, (j < k)%nat ->
               nth j (map2 Rplus
                        (map2 Rmult (standard_normal noise k)
                              (Args.sample_std a))
                        (Args.cur_mean a)) 0
               = noise j * nth j (Args.sample_std a) 0
                 + nth j (Args.cur_mean a) 0).
    { intros j Hj.
      rewrite (map2_nth Rplus _ _ j 0 0) by (rewrite ?map2_length; lia).
      rewrite (map2_nth Rmult _ _ j 0 0) by lia.
      now rewrite Hnoise. }
    split; [exact Hl|]. split; [exact Hnth|].
    intros Hzero. apply nth_ext with (d := 0) (d' := 0); [exact Hl|].
    intros j Hj. rewrite Hl in Hj. rewrite Hnth by exact Hj.
    rewrite nth_all_zero by exact Hzero. ring.
  - intros s Hs. rewrite Hs in Es.
    rewrite broadcast_scalar_r in Es. injection Es as <-.
    rewrite broadcast_same in Ep by (rewrite length_map; lia).
    injection Ep as <-.
    assert (Hl : length (map2 Rplus
                           (map (fun u => u * s) (standard_normal noise k))
                           (Args.cur_mean a)) = k)
      by (rewrite map2_length, length_map; lia).
    assert (Hnth : forall j, (j < k)%nat ->
               nth j (map2 Rplus
                        (map (fun u => u * s) (standard_normal noise k))
                        (Args.cur_mean a)) 0
               = noise j * s + nth j (Args.cur_mean a) 0).
    { intros j Hj.
      rewrite (map2_nth Rplus _ _ j 0 0) by (rewrite ?length_map; lia).
      rewrite nth_indep with (d' := (fun u => u * s) 0)
        by (rewrite length_map; lia).
      rewrite (map_nth (fun u => u * s)). now rewrite Hnoise. }
    split; [exact Hl|]. split; [exact Hnth|].
    intros ->. apply nth_ext with (d := 0) (d' := 0); [exact Hl|].
    intros j Hj. rewrite Hl in Hj. rewrite Hnth by exact Hj. ring.
Qed.

Lemma worker_draw_witness :
  exists params rp,
    _worker_rollout_policy (fun _ => 1) (fun _ _ _ => [1; 1])
      {| policy_params := [] |} (Args.mk [5; 6] [0] 2 (1 / 2) "paths" 1)
    = Ok ({| policy_params := params |}, ((params, rp), 1%nat))
    /\ params = [5; 6].
Proof.
  destruct (worker_after_draw (fun _ => 1) (fun _ _ _ => [1; 1])
              {| policy_params := [] |}
              (Args.mk [5; 6] [0] 2 (1 / 2) "paths" 1))
    as (params & E); [right; left; reflexivity|].
  cbn [Args.criterion increment String.eqb Ascii.eqb Bool.eqb bind] in E.
  destruct (worker_draw (fun _ => 1) (fun _ _ _ => [1; 1]) _ _
              (Args.mk [5; 6] [0] 2 (1 / 2) "paths" 1) _ _ _ E)
    as (_ & _ & _ & _ & Hs).
  destruct (Hs 0 eq_refl) as (_ & _ & Hz).
  do 2 eexists. split; [exact E | now apply Hz].
Defined.

(** * Further properties of the distribution update *)

Lemma fitness_ok_inv (paths : list ResultPath.t) (fs : list (option R)) :
  fitness paths = Ok fs ->
  Forall (fun p => ResultPath.returns p <> []) paths.
Proof.
  revert fs. induction paths as [|p paths IH]; intros fs; [constructor|].
  simpl. unfold first_return.
  destruct (ResultPath.returns p) as [|f r] eqn:Er; [discriminate|].
  simpl bind at 1.
  destruct (fitness paths) as [fs'|e]; [|discriminate].
  intros _. constructor; [congruence | now apply (IH fs')].
Qed.

Lemma fitness_raises (paths : list ResultPath.t) (e : exn) :
  fitness paths = Raise e -> e = IndexError.
Proof.
  induction paths as [|p paths IH]; [discriminate|].
  simpl. unfold first_return.
  destruct (ResultPath.returns p) as [|f r]; [now intros [= <-]|].
  simpl bind at 1.
  destruct (fitness paths) as [fs'|e']; [discriminate|].
  simpl. intros [= <-]. now apply IH.
Qed.

Lemma argsort_neg_length (fs : list (option R)) :
  length (argsort (neg fs)) = length fs.
Proof.
  rewrite (Permutation_length (proj1 (argsort_neg_ranks fs))).
  apply length_seq.
Qed.

Lemma firstn_incl {A : Type} (n : nat) (l : list A) (x : A) :
  In x (firstn n l) -> In x l.
Proof.
  intros H. rewrite <- (firstn_skipn n l). apply in_or_app. now left.
Qed.

Lemma firstn_NoDup {A : Type} (n : nat) (l : list A) :
  NoDup l -> NoDup (firstn n l).
Proof.
  intros H. rewrite <- (firstn_skipn n l) in H.
  now apply NoDup_app_remove_r in H.
Qed.

Lemma update_best_x_sampled (n_best : Z) (infos : list Info) (u : Update) :
  update n_best infos = Ok u -> In (best_x u) (map fst infos).
Proof.
  intros Hu.
  destruct (update_inv _ _ _ Hu)
    as (fs & top & rest & m & Hf & Ha & _ & _ & _ & _ & Hx).
  rewrite Hx. apply nth_In.
  destruct (argsort_neg_ranks fs) as (Hp & _). rewrite Ha in Hp.
  assert (Hin : In top (seq 0 (length fs)))
    by (apply (Permutation_in _ Hp); now left).
  apply in_seq in Hin. rewrite (fitness_length _ _ Hf) in Hin.
  rewrite length_map in Hin |- *. lia.
Qed.

(** X11.  For n_best >= 1 the update succeeds exactly on a non-empty batch
    in which every returns vector is non-empty, and the only exception it
    raises is [IndexError]. *)
Theorem update_ok_iff (n_best : Z) (infos : list Info) (Hn : (1 <= n_best)%Z) :
  ((exists u, update n_best infos = Ok u)
   <-> infos <> []
       /\ Forall (fun info => ResultPath.returns (snd info) <> []) infos)
  /\ (forall e, update n_best infos = Raise e -> e = IndexError).
Proof.
  split; [split|].
  - intros (u & Hu).
    destruct (update_inv _ _ _ Hu) as (fs & top & rest & m & Hf & Ha & _).
    split.
    + intros ->. simpl in Hf. injection Hf as <-. discriminate.
    + apply fitness_ok_inv in Hf. now rewrite Forall_map in Hf.
  - intros (Hne & Hret).
    destruct (update_selects n_best infos Hn Hne Hret) as (_ & Hu). eauto.
  - intros e. unfold update.
    destruct (fitness (map snd infos)) as [fs|e'] eqn:Ef.
    + simpl bind. destruct (map _ (firstn _ _)); [now intros [= <-]|].
      discriminate.
    + simpl. intros [= <-]. now apply fitness_raises in Ef.
Qed.

Lemma update_ok_iff_witness :
  exists u, update 1 [([1; 2], ResultPath.mk [] None [Some 5])] = Ok u.
Proof.
  apply (update_ok_iff 1 [([1; 2], ResultPath.mk [] None [Some 5])]).
  - lia.
  - split; [discriminate|]. repeat constructor; discriminate.
Defined.

(** X12.  The survivors of a successful update are distinct samples of the
    batch, min(n_best, batch size) of them, and the vector installed in the
    policy is one of the sampled parameter vectors of the batch. *)
Theorem update_survivors (n_best : Z) (infos : list Info) (u : Update)
        (Hu : update n_best infos = Ok u) :
  NoDup (best_inds u)
  /\ Forall (fun i => (i < length infos)%nat) (best_inds u)
  /\ length (best_inds u) = Nat.min (Z.to_nat n_best) (length infos)
  /\ In (best_x u) (map fst infos).
Proof.
  destruct (update_best_inds _ _ _ Hu) as (fs & Hf & Hb & Hlen).
  destruct (argsort_neg_ranks fs) as (Hp & _).
  pose proof (fitness_length _ _ Hf) as Hfl. rewrite length_map in Hfl.
  assert (Hin : forall i, In i (best_inds u) -> (i < length infos)%nat).
  { intros i Hi. rewrite Hb in Hi. apply firstn_incl in Hi.
    apply (Permutation_in _ Hp) in Hi. apply in_seq in Hi.
    destruct Hi as [_ Hi]. simpl in Hi. rewrite Hfl in Hi. exact Hi. }
  split.
  - rewrite Hb. apply firstn_NoDup.
    apply Permutation_NoDup with (seq 0 (length fs));
      [now symmetry | apply seq_NoDup].
  - split; [now apply Forall_forall|]. split; [exact Hlen|].
    destruct (update_inv _ _ _ Hu)
      as (fs' & top & rest & m & _ & _ & _ & Hb' & _ & _ & Hx).
    rewrite Hx. apply nth_In. rewrite length_map.
    apply Hin. rewrite Hb'. now left.
Qed.

Lemma update_survivors_witness :
  exists u,
    update 5 [([1; 2], ResultPath.mk [] None [Some 5]);
              ([3; 4], ResultPath.mk [] None [Some 7])] = Ok u
    /\ NoDup (best_inds u) /\ length (best_inds u) = 2%nat.
Proof.
  destruct (update_selects 5
              [([1; 2], ResultPath.mk [] None [Some 5]);
               ([3; 4], ResultPath.mk [] None [Some 7])])
    as (_ & Hu); [lia | discriminate | repeat constructor; discriminate |].
  eexists. split; [exact Hu|].
  destruct (update_survivors _ _ _ Hu) as (Hd & _ & Hl & _).
  split; [exact Hd | exact Hl].
Defined.

(** X13.  Raising n_best only appends survivors: the survivors for a smaller
    n_best are a prefix of those for a larger one on the same batch, and
    the vector installed in the policy does not depend on n_best. *)
Theorem update_prefix (n n' : Z) (infos : list Info) (u u' : Update)
        (Hu : update n infos = Ok u) (Hu' : update n' infos = Ok u')
        (Hle : (n <= n')%Z) :
  best_inds u = firstn (Z.to_nat n) (best_inds u')
  /\ best_x u = best_x u'.
Proof.
  destruct (update_inv _ _ _ Hu)
    as (fs & top & rest & m & Hf & Ha & Hm & _ & _ & _ & Hx).
  destruct (update_inv _ _ _ Hu')
    as (fs' & top' & rest' & m' & Hf' & Ha' & Hm' & _ & _ & _ & Hx').
  rewrite Hf in Hf'. injection Hf' as <-.
  rewrite Ha in Ha'. injection Ha' as <- <-.
  split; [|congruence].
  destruct (update_best_inds _ _ _ Hu) as (fs1 & Hf1 & Hb & _).
  destruct (update_best_inds _ _ _ Hu') as (fs2 & Hf2 & Hb' & _).
  rewrite Hf in Hf1, Hf2. injection Hf1 as <-. injection Hf2 as <-.
  rewrite Hb, Hb', firstn_firstn. f_equal. lia.
Qed.

Lemma update_prefix_witness :
  exists u u',
    update 1 [([1; 2], ResultPath.mk [] None [Some 5]);
              ([3; 4], ResultPath.mk [] None [Some 7])] = Ok u
    /\ update 2 [([1; 2], ResultPath.mk [] None [Some 5]);
                 ([3; 4], ResultPath.mk [] None [Some 7])] = Ok u'
    /\ best_inds u = firstn 1 (best_inds u') /\ best_x u = best_x u'.
Proof.
  destruct (update_selects 1
              [([1; 2], ResultPath.mk [] None [Some 5]);
               ([3; 4], ResultPath.mk [] None [Some 7])])
    as (_ & Hu); [lia | discriminate | repeat constructor; discriminate |].
  destruct (update_selects 2
              [([1; 2], ResultPath.mk [] None [Some 5]);
               ([3; 4], ResultPath.mk [] None [Some 7])])
    as (_ & Hu'); [lia | discriminate | repeat constructor; discriminate |].
  do 2 eexists. split; [exact Hu|]. split; [exact Hu'|].
  apply (update_prefix 1 2 _ _ _ Hu Hu'). lia.
Defined.

Lemma total_perm (l l' : list R) :
  Permutation l l' -> Spec.total l = Spec.total l'.
Proof.
  induction 1 as [|v l l' _ IH|v w l|l l' l'' _ IH1 _ IH2]; simpl;
    [reflexivity | rewrite IH; reflexivity | lra | congruence].
Qed.

Lemma mean_perm (l l' : list R) :
  Permutation l l' -> Spec.mean l = Spec.mean l'.
Proof.
  intros H. unfold Spec.mean.
  now rewrite (total_perm _ _ H), (Permutation_length H).
Qed.

Lemma std_population_perm (l l' : list R) :
  Permutation l l' -> Spec.std_population l = Spec.std_population l'.
Proof.
  intros H. unfold Spec.std_population, Spec.sq_dev.
  rewrite (mean_perm _ _ H), (Permutation_length H).
  now rewrite (total_perm _ _
                 (Permutation_map (fun v => (v - Spec.mean l') ^ 2) H)).
Qed.

Lemma map_nth_seq_gen {A : Type} (d : A) (l : list A) :
  map (fun j => nth j l d) (seq 0 (length l)) = l.
Proof.
  apply nth_ext with (d := d) (d' := d).
  - now rewrite length_map, length_seq.
  - intros n Hn. rewrite length_map, length_seq in Hn.
    now rewrite map_seq_nth.
Qed.

(** X14.  When n_best is at least the batch size every sample survives, and
    the refitted mean and std are the plain elementwise mean and population
    standard deviation of all sampled parameter vectors: the ranking then
    decides only which vector goes into the policy. *)
Theorem update_whole_batch (n_best : Z) (infos : list Info) (u : Update)
        (Hu : update n_best infos = Ok u)
        (Hall : (length infos <= Z.to_nat n_best)%nat) :
  Permutation (best_inds u) (seq 0 (length infos))
  /\ forall j, (j < length (best_x u))%nat ->
       nth j (new_mean u) 0
       = Spec.mean (map (fun x => nth j x 0) (map fst infos))
       /\ nth j (new_std u) 0
          = Spec.std_population (map (fun x => nth j x 0) (map fst infos)).
Proof.
  destruct (update_inv _ _ _ Hu)
    as (fs & top & rest & m & Hf & Ha & Hm & Hb & Hmean & Hstd & Hx).
  set (xs := map fst infos) in *.
  assert (Hlx : length infos = length xs)
    by (unfold xs; symmetry; apply length_map).
  assert (Hfx : length fs = length xs).
  { rewrite (fitness_length _ _ Hf). unfold xs. now rewrite !length_map. }
  destruct (argsort_neg_ranks fs) as (Hp & _).
  pose proof (argsort_neg_length fs) as Hal.
  rewrite Ha in Hp, Hal. rewrite Hfx in Hp, Hal.
  assert (Hrest : firstn m rest = rest).
  { apply firstn_all2. simpl in Hal. rewrite Hm, Hlx in Hall. lia. }
  rewrite Hrest in Hb, Hmean, Hstd.
  split; [rewrite Hb, Hlx; exact Hp|].
  set (best_xs := map (fun i => nth i xs []) (top :: rest)) in *.
  assert (Hperm : Permutation best_xs xs).
  { unfold best_xs.
    rewrite (Permutation_map (fun i => nth i xs []) Hp).
    now rewrite map_nth_seq_gen. }
  intros j Hj.
  assert (Hcols : ncols best_xs = length (best_x u))
    by (unfold best_xs; simpl; now rewrite Hx).
  destruct (axis0_entries best_xs) as (_ & _ & Hent).
  destruct (Hent j) as (Em & Es); [now rewrite Hcols|].
  rewrite Hmean, Hstd, Em, Es.
  pose proof (Permutation_map (fun r => nth j r 0) Hperm) as Hc.
  split; [now apply mean_perm | now apply std_population_perm].
Qed.

Lemma update_whole_batch_witness :
  exists u,
    update 5 [([1; 2], ResultPath.mk [] None [Some 5]);
              ([3; 4], ResultPath.mk [] None [Some 7])] = Ok u
    /\ Permutation (best_inds u) (seq 0 2)
    /\ nth 0 (new_mean u) 0 = Spec.mean [1; 3]
    /\ nth 1 (new_std u) 0 = Spec.std_population [2; 4].
Proof.
  destruct (update_selects 5
              [([1; 2], ResultPath.mk [] None [Some 5]);
               ([3; 4], ResultPath.mk [] None [Some 7])])
    as (_ & Hu); [lia | discriminate | repeat constructor; discriminate |].
  match type of Hu with _ = Ok ?v => set (u := v) in * end.
  exists u. split; [exact Hu|].
  destruct (update_whole_batch _ _ _ Hu) as (Hp & Hent); [simpl; lia|].
  split; [exact Hp|].
  assert (Hlen : length (best_x u) = 2%nat).
  { pose proof (update_best_x_sampled _ _ _ Hu) as Hin.
    destruct Hin as [<-|[<-|[]]]; reflexivity. }
  destruct (Hent 0%nat) as (Hm0 & _); [rewrite Hlen; lia|].
  destruct (Hent 1%nat) as (_ & Hs1); [rewrite Hlen; lia|].
  split; [exact Hm0 | exact Hs1].
Defined.

(** * Further properties of the iteration driver *)

Lemma firstn_seq_le (k start n : nat) :
  (k <= n)%nat -> firstn k (seq start n) = seq start k.
Proof.
  revert start n. induction k as [|k IH]; intros start [|n] Hk; simpl;
    try reflexivity; try lia.
  rewrite IH by lia. reflexivity.
Qed.

Lemma train_loop_itrs (run_collect : nat -> Z -> Args.t -> list Info)
      (self : CEM.t) (n_best : Z) (itrs : list nat) (st : State) :
  let run := train_loop run_collect self n_best itrs st in
  map log_itr (fst run) = firstn (length (fst run)) itrs
  /\ (length (fst run) <= length itrs)%nat
  /\ (forall st', snd run = Ok st' -> length (fst run) = length itrs)
  /\ (forall e, snd run = Raise e -> (length (fst run) < length itrs)%nat).
Proof.
  revert st. induction itrs as [|itr rest IH]; intros st; simpl.
  - repeat split; auto; discriminate.
  - destruct (train_itr run_collect self n_best itr st) as [[st' lg]|e] eqn:E.
    + destruct (IH st') as (Hm & Hl & Hok & Hr). simpl.
      apply train_itr_sample_std in E. destruct E as (-> & _).
      split; [now rewrite Hm|]. split; [lia|].
      split; [intros s Hs; now rewrite (Hok s Hs)|].
      intros e He. specialize (Hr e He). lia.
    + simpl. repeat split; try lia; discriminate.
Qed.

Lemma train_loop_last (run_collect : nat -> Z -> Args.t -> list Info)
      (self : CEM.t) (n_best : Z) (itrs : list nat) (st0 st : State) :
  snd (train_loop run_collect self n_best itrs st0) = Ok st ->
  (itrs = [] /\ st = st0)
  \/ exists front lg itr st_prev,
       fst (train_loop run_collect self n_best itrs st0) = front ++ [lg]
       /\ train_itr run_collect self n_best itr st_prev = Ok (st, lg).
Proof.
  revert st0. induction itrs as [|itr rest IH]; intros st0; simpl.
  - intros [= <-]. now left.
  - destruct (train_itr run_collect self n_best itr st0) as [[st' lg]|e] eqn:E;
      [|discriminate].
    simpl. intros H. right.
    destruct (IH st' H) as [(-> & ->) | (front & lg' & itr' & sp & Hf & Ht)].
    + exists [], lg, itr, st0. simpl. split; [reflexivity | exact E].
    + exists (lg :: front), lg', itr', sp. rewrite Hf. split; [reflexivity|].
      exact Ht.
Qed.

(** X15.  With extra_decay_time = 0 every iteration raises
    [ZeroDivisionError] before anything is sampled, so a run of at least
    one iteration ends at once with that exception and an empty log. *)
Theorem train_zero_decay_time (run_collect : nat -> Z -> Args.t -> list Info)
        (self : CEM.t) (H0 : CEM.extra_decay_time self = 0) :
  (forall n_best itr st,
      train_itr run_collect self n_best itr st = Raise ZeroDivisionError)
  /\ (forall param_values,
         CEM.n_itr self <> 0%nat ->
         train run_collect self param_values = ([], Raise ZeroDivisionError)).
Proof.
  assert (Hitr : forall n_best itr st,
             train_itr run_collect self n_best itr st
             = Raise ZeroDivisionError).
  { intros n_best itr st. unfold train_itr, extra_var_mult. rewrite H0.
    destruct (Req_dec_T 0 0) as [_|Hne]; [reflexivity | congruence]. }
  split; [exact Hitr|].
  intros param_values Hn. unfold train.
  destruct (CEM.n_itr self) as [|n]; [congruence|].
  simpl. now rewrite Hitr.
Qed.

Lemma train_zero_decay_time_witness :
  train (fun _ _ _ => []) (CEM.mk 3 10 (1 / 2) 1 40 None (1 / 20) 1 0 1) [0; 0]
  = ([], Raise ZeroDivisionError).
Proof.
  apply (train_zero_decay_time (fun _ _ _ => [])
           (CEM.mk 3 10 (1 / 2) 1 40 None (1 / 20) 1 0 1)).
  - reflexivity.
  - discriminate.
Defined.

(** X16.  The log of a run lists the completed iterations 0, 1, 2, ... in
    order, never more than n_itr of them: all n_itr when the run ends
    normally, fewer when an exception ended it. *)
Theorem train_logs (run_collect : nat -> Z -> Args.t -> list Info)
        (self : CEM.t) (param_values : list R) :
  let run := train run_collect self param_values in
  map log_itr (fst run) = seq 0 (length (fst run))
  /\ (length (fst run) <= CEM.n_itr self)%nat
  /\ (forall st, snd run = Ok st -> length (fst run) = CEM.n_itr self)
  /\ (forall e, snd run = Raise e -> (length (fst run) < CEM.n_itr self)%nat).
Proof.
  unfold train.
  match goal with
  | |- context [train_loop run_collect self ?nb ?itrs ?st] =>
      destruct (train_loop_itrs run_collect self nb itrs st)
        as (Hm & Hl & Hok & Hr)
  end.
  rewrite length_seq in Hl, Hok, Hr. cbv zeta.
  split; [|now repeat split].
  rewrite Hm. now apply firstn_seq_le.
Qed.

(** X17.  A run that ends normally after at least one iteration leaves in
    the policy the best vector of its last iteration, which is one of the
    parameter vectors sampled in that iteration, and its distribution is
    the one refitted there; a run of zero iterations returns the initial
    parameters and distribution untouched. *)
Theorem train_final_state (run_collect : nat -> Z -> Args.t -> list Info)
        (self : CEM.t) (param_values : list R) (st : State)
        (H : snd (train run_collect self param_values) = Ok st) :
  (CEM.n_itr self = 0%nat ->
   fst (train run_collect self param_values) = []
   /\ st = {| cur_mean := param_values;
              cur_std := [CEM.init_std self];
              policy := param_values |})
  /\ (forall front lg,
         fst (train run_collect self param_values) = front ++ [lg] ->
         policy st = best_x (log_update lg)
         /\ In (policy st) (map fst (log_infos lg))
         /\ cur_mean st = new_mean (log_update lg)
         /\ cur_std st = new_std (log_update lg)).
Proof.
  split.
  - intros Hn. unfold train in *. rewrite Hn in *. simpl in *.
    injection H as <-. now split.
  - intros front lg Hlogs. unfold train in H, Hlogs.
    apply train_loop_last in H.
    destruct H as [(Hs & _) | (front' & lg' & itr & sp & Hf & Ht)].
    + rewrite Hs in Hlogs. simpl in Hlogs. now destruct front.
    + rewrite Hf in Hlogs. apply app_inj_tail in Hlogs.
      destruct Hlogs as (_ & ->).
      destruct (train_itr_inv _ _ _ _ _ _ _ Ht) as (Hu & Hm & Hs & Hp & _).
      split; [exact Hp|]. split; [|now split].
      rewrite Hp. now apply update_best_x_sampled with (n_best_of
        (CEM.n_samples self) (CEM.best_frac self)).
Qed.

Lemma train_loop_total (run_collect : nat -> Z -> Args.t -> list Info)
      (self : CEM.t) (n_best : Z) (itrs : list nat) (st : State) :
  CEM.extra_decay_time self <> 0 -> (1 <= n_best)%Z ->
  (forall itr thr a,
      run_collect itr thr a <> []
      /\ Forall (fun info => ResultPath.returns (snd info) <> [])
                (run_collect itr thr a)) ->
  exists st', snd (train_loop run_collect self n_best itrs st) = Ok st'.
Proof.
  intros HT Hn Hrc. revert st.
  induction itrs as [|itr rest IH]; intros st; simpl; [eauto|].
  destruct (train_itr_total run_collect self n_best itr st HT Hn (Hrc itr))
    as (st' & lg & E).
  rewrite E. simpl. apply IH.
Qed.

Lemma train_final_state_witness :
  exists st lg,
    snd (train (fun _ _ _ => [([1; 2], ResultPath.mk [] None [Some 5])])
               (CEM.mk 1 10 (1 / 2) 1 40 None (1 / 20) 1 100 1) [0; 0]) = Ok st
    /\ policy st = best_x (log_update lg)
    /\ In (policy st) (map fst (log_infos lg)).
Proof.
  assert (Hrc : forall (itr : nat) (thr : Z) (a : Args.t),
             [([1; 2], ResultPath.mk [] None [Some 5])] <> []
             /\ Forall (fun info => ResultPath.returns (snd info) <> [])
                       [([1; 2], ResultPath.mk [] None [Some 5])]).
  { intros _ _ _. split; [discriminate|]. repeat constructor; discriminate. }
  destruct (train_loop_total
              (fun _ _ _ => [([1; 2], ResultPath.mk [] None [Some 5])])
              (CEM.mk 1 10 (1 / 2) 1 40 None (1 / 20) 1 100 1)
              (n_best_of 40 (1 / 20)) (seq 0 1)
              {| cur_mean := [0; 0]; cur_std := [1]; policy := [0; 0] |})
    as (st & Hst); [simpl; lra | unfold n_best_of; lia | exact Hrc |].
  destruct (train_first_iteration
              (fun _ _ _ => [([1; 2], ResultPath.mk [] None [Some 5])])
              (CEM.mk 1 10 (1 / 2) 1 40 None (1 / 20) 1 100 1) [0; 0])
    as (lg & Hlg); [reflexivity | simpl; lra | exact (Hrc 0%nat) |].
  exists st, lg. split; [exact Hst|].
  destruct (train_final_state _ _ _ st Hst) as (_ & Hlast).
  destruct (Hlast [] lg Hlg) as (Hp & Hin & _).
  split; [exact Hp | exact Hin].
Defined.

(** X18.  A run whose decay time is not zero and whose every batch is
    non-empty with non-empty returns vectors ends normally, having logged
    all n_itr iterations. *)
Theorem train_completes (run_collect : nat -> Z -> Args.t -> list Info)
        (self : CEM.t) (param_values : list R)
        (HT : CEM.extra_decay_time self <> 0)
        (Hrc : forall itr thr a,
            run_collect itr thr a <> []
            /\ Forall (fun info => ResultPath.returns (snd info) <> [])
                      (run_collect itr thr a)) :
  exists st,
    snd (train run_collect self param_values) = Ok st
    /\ length (fst (train run_collect self param_values)) = CEM.n_itr self.
Proof.
  unfold train.
  match goal with
  | |- context [train_loop run_collect self ?nb ?itrs ?st0] =>
      destruct (train_loop_total run_collect self nb itrs st0 HT) as (st & Hst);
        [unfold n_best_of; lia | exact Hrc |];
      destruct (train_loop_itrs run_collect self nb itrs st0)
        as (_ & _ & Hok & _)
  end.
  exists st. split; [exact Hst|].
  rewrite (Hok st Hst). apply length_seq.
Qed.

Lemma train_completes_witness :
  exists st,
    snd (train (fun _ _ _ => [([1; 2], ResultPath.mk [] None [Some 5])])
               (CEM.mk 3 10 (1 / 2) 1 40 None (1 / 20) 1 100 1) [0; 0]) = Ok st
    /\ length (fst (train
                      (fun _ _ _ => [([1; 2], ResultPath.mk [] None [Some 5])])
                      (CEM.mk 3 10 (1 / 2) 1 40 None (1 / 20) 1 100 1) [0; 0]))
       = 3%nat.
Proof.
  apply (train_completes
           (fun _ _ _ => [([1; 2], ResultPath.mk [] None [Some 5])])
           (CEM.mk 3 10 (1 / 2) 1 40 None (1 / 20) 1 100 1) [0; 0]).
  - simpl. lra.
  - intros _ _ _. split; [discriminate|]. repeat constructor; discriminate.
Defined.

(** X20.  Whatever the (non-zero) decay time, the first iteration of a run
    samples with the one-element std sqrt(init_std^2 + extra_std^2): the
    extra variance enters in full at iteration 0. *)
Theorem train_first_sample_std (run_collect : nat -> Z -> Args.t -> list Info)
        (self : CEM.t) (param_values : list R) (lg : IterLog)
        (rest : list IterLog)
        (H : fst (train run_collect self param_values) = lg :: rest) :
  log_itr lg = 0%nat
  /\ log_sample_std lg
     = [sqrt (CEM.init_std self * CEM.init_std self
              + CEM.extra_std self * CEM.extra_std self)].
Proof.
  unfold train in H. destruct (CEM.n_itr self) as [|n]; [discriminate|].
  simpl in H.
  match type of H with
  | context [train_itr run_collect self ?nb 0%nat ?st0] =>
      destruct (train_itr run_collect self nb 0%nat st0)
        as [[st' lg0]|e] eqn:E; [|discriminate]
  end.
  simpl in H. injection H as -> _.
  apply train_itr_sample_std in E. destruct E as (Hi & Hs).
  split; [exact Hi|]. rewrite Hs. simpl.
  replace (Rmax (1 - 0 / CEM.extra_decay_time self) 0) with 1;
    [do 2 f_equal; ring|].
  unfold Rdiv. rewrite Rmult_0_l, Rminus_0_r. symmetry.
  apply Rmax_left. lra.
Qed.

Lemma train_first_sample_std_witness :
  exists lg,
    fst (train (fun _ _ _ => [([1; 2], ResultPath.mk [] None [Some 5])])
               (CEM.mk 1 10 (1 / 2) 3 40 None (1 / 20) 4 100 1) [0; 0]) = [lg]
    /\ log_sample_std lg = [sqrt (3 * 3 + 4 * 4)].
Proof.
  destruct (train_first_iteration
              (fun _ _ _ => [([1; 2], ResultPath.mk [] None [Some 5])])
              (CEM.mk 1 10 (1 / 2) 3 40 None (1 / 20) 4 100 1) [0; 0])
    as (lg & Hlg); [reflexivity | simpl; lra | |].
  { intros _ _. split; [discriminate|]. repeat constructor; discriminate. }
  exists lg. split; [exact Hlg|].
  apply (train_first_sample_std _ _ _ lg [] Hlg).
Defined.

(** ** The survivor count outside the documented range *)

Lemma py_int_neg (r : R) :
  r < 0 -> r <= IZR (py_int r) < r + 1.
Proof.
  intros Hr. unfold py_int. destruct (Rle_dec 0 r) as [H|_]; [lra|].
  destruct (base_Int_part (- r)) as (Hlo & Hhi).
  rewrite opp_IZR. lra.
Qed.

Lemma py_int_mono (r r' : R) : r <= r' -> (py_int r <= py_int r')%Z.
Proof.
  intros Hle. apply le_IZR.
  destruct (Rle_dec 0 r) as [Hr|Hr], (Rle_dec 0 r') as [Hr'|Hr'].
  - pose proof (py_int_floor r Hr). pose proof (py_int_floor r' Hr').
    assert (IZR (py_int r) < IZR (py_int r' + 1))
      by (rewrite plus_IZR; simpl; lra).
    apply lt_IZR in H1. apply IZR_le. lia.
  - lra.
  - pose proof (py_int_neg r ltac:(lra)). pose proof (py_int_floor r' Hr').
    assert (IZR (py_int r) < IZR 1) by (simpl; lra).
    assert (IZR (-1) < IZR (py_int r')) by (simpl; lra).
    apply lt_IZR in H1, H2. apply IZR_le. lia.
  - pose proof (py_int_neg r ltac:(lra)). pose proof (py_int_neg r' ltac:(lra)).
    assert (IZR (py_int r) < IZR (py_int r' + 1))
      by (rewrite plus_IZR; simpl; lra).
    apply lt_IZR in H1. apply IZR_le. lia.
Qed.

(** X22.  The survivor count is 1 whenever n_samples * best_frac is below 1,
    zero and negative products included; it never exceeds n_samples when
    n_samples >= 1 and best_frac <= 1; and for n_samples >= 0 it does not
    decrease when best_frac grows. *)
Theorem n_best_bounds (n_samples : Z) (best_frac : R) :
  (IZR n_samples * best_frac < 1 -> n_best_of n_samples best_frac = 1%Z)
  /\ ((1 <= n_samples)%Z -> best_frac <= 1 ->
      (n_best_of n_samples best_frac <= n_samples)%Z)
  /\ (forall best_frac', (0 <= n_samples)%Z -> best_frac <= best_frac' ->
        (n_best_of n_samples best_frac <= n_best_of n_samples best_frac')%Z).
Proof.
  split; [|split].
  - intros Hlt. unfold n_best_of.
    assert (py_int (IZR n_samples * best_frac) <= py_int 1)%Z
      by (apply py_int_mono; lra).
    destruct (Rle_dec 0 (IZR n_samples * best_frac)) as [Hp|Hp].
    + pose proof (py_int_floor _ Hp).
      assert (IZR (py_int (IZR n_samples * best_frac)) < IZR 1)
        by (simpl; lra).
      apply lt_IZR in H1. lia.
    + pose proof (py_int_neg (IZR n_samples * best_frac) ltac:(lra)).
      assert (IZR (py_int (IZR n_samples * best_frac)) < IZR 1)
        by (simpl; lra).
      apply lt_IZR in H1. lia.
  - intros Hn Hf. unfold n_best_of.
    assert (Hle : IZR n_samples * best_frac <= IZR n_samples).
    { apply IZR_le in Hn. simpl in Hn. nra. }
    apply py_int_mono in Hle.
    rewrite (py_int_unique (IZR n_samples) n_samples) in Hle;
      [lia | apply IZR_le in Hn; simpl in Hn; lra | lra].
  - intros bf' Hn Hf. unfold n_best_of.
    assert (Hle : IZR n_samples * best_frac <= IZR n_samples * bf').
    { apply IZR_le in Hn. simpl in Hn. nra. }
    apply py_int_mono in Hle. lia.
Qed.

Lemma n_best_bounds_witness :
  n_best_of 0 (1 / 2) = 1%Z.
Proof. apply (n_best_bounds 0 (1 / 2)). lra. Defined.

(** * Properties of the per-iteration records *)

Lemma extremum_nonempty (pick : R -> R -> R) (a : list (option R)) :
  a <> [] ->
  NpNan.extremum pick a
  = Ok (match NpNan.numbers a with
        | Some (v :: rest) => Some (fold_left pick rest v)
        | _ => None
        end).
Proof. destruct a; [congruence | reflexivity]. Qed.

Lemma iteration_records_ok (itr : nat) (cur_std : list R)
      (fs : list (option R)) (paths : list ResultPath.t) :
  paths <> [] ->
  exists max_return min_return,
    NpNan.max (map ResultPath.undiscounted_return paths) = Ok max_return
    /\ NpNan.min (map ResultPath.undiscounted_return paths) = Ok min_return
    /\ iteration_records itr cur_std fs paths
       = Ok [ ("Iteration"%string, TInt (Z.of_nat itr));
              ("CurStdMean"%string, TFloat (Np.mean cur_std));
              ("AverageReturn"%string,
               TFloat (NpNan.mean (map ResultPath.undiscounted_return paths)));
              ("StdReturn"%string,
               TFloat (NpNan.std (map ResultPath.undiscounted_return paths)));
              ("MaxReturn"%string, TFloat max_return);
              ("MinReturn"%string, TFloat min_return);
              ("AverageDiscountedReturn"%string, TFloat (NpNan.mean fs));
              ("NumTrajs"%string, TInt (Z.of_nat (length paths)));
              ("AvgTrajLen"%string,
               TFloat (Np.mean
                         (map (fun path => INR (length (Path.returns path)))
                              (flatten_paths paths)))) ].
Proof.
  intros Hne.
  assert (Ha : map ResultPath.undiscounted_return paths <> [])
    by (destruct paths; [congruence | discriminate]).
  unfold iteration_records, NpNan.max, NpNan.min.
  rewrite !extremum_nonempty by exact Ha.
  do 2 eexists. split; [reflexivity|]. split; reflexivity.
Qed.

Lemma numbers_all (a : list (option R)) (x : list R) :
  NpNan.numbers a = Some x -> a = map Some x.
Proof.
  revert x. induction a as [|[v|] a IH]; intros x; simpl.
  - now intros [= <-].
  - destruct (NpNan.numbers a) as [y|]; [|discriminate].
    intros [= <-]. simpl. now rewrite (IH y).
  - discriminate.
Qed.

Lemma numbers_nan (a : list (option R)) :
  In None a -> NpNan.numbers a = None.
Proof.
  induction a as [|[v|] a IH]; simpl; [tauto | | reflexivity].
  intros [H|H]; [discriminate|]. now rewrite IH.
Qed.

Lemma fold_max_spec (rest : list R) (v : R) :
  In (fold_left Rmax rest v) (v :: rest)
  /\ Forall (fun w => w <= fold_left Rmax rest v) (v :: rest).
Proof.
  revert v. induction rest as [|w rest IH]; intros v; simpl.
  - split; [now left | constructor; [lra | constructor]].
  - destruct (IH (Rmax v w)) as (Hin & Hall).
    inversion Hall as [|? ? Hhd Htl]; subst. split.
    + destruct Hin as [Hin | Hin]; [|now right; right].
      rewrite <- Hin. unfold Rmax. destruct (Rle_dec v w); [right|]; now left.
    + pose proof (Rmax_l v w). pose proof (Rmax_r v w).
      constructor; [lra|]. constructor; [lra | exact Htl].
Qed.

Lemma fold_min_spec (rest : list R) (v : R) :
  In (fold_left Rmin rest v) (v :: rest)
  /\ Forall (fun w => fold_left Rmin rest v <= w) (v :: rest).
Proof.
  revert v. induction rest as [|w rest IH]; intros v; simpl.
  - split; [now left | constructor; [lra | constructor]].
  - destruct (IH (Rmin v w)) as (Hin & Hall).
    inversion Hall as [|? ? Hhd Htl]; subst. split.
    + destruct Hin as [Hin | Hin]; [|now right; right].
      rewrite <- Hin. unfold Rmin. destruct (Rle_dec v w); [|right]; now left.
    + pose proof (Rmin_l v w). pose proof (Rmin_r v w).
      constructor; [lra|]. constructor; [lra | exact Htl].
Qed.

(** X23.  The records of an iteration fail only on an empty batch, with the
    [ValueError] of [np.max]; the update rejects such a batch first, so
    after a successful update the records are always produced, with the
    iteration index and, as NumTrajs, the batch size. *)
Theorem records_after_update :
  (forall itr cur_std fs paths e,
      iteration_records itr cur_std fs paths = Raise e
      <-> paths = [] /\ e = ValueError)
  /\ (forall n_best infos u itr,
         update n_best infos = Ok u ->
         exists fs recs,
           fitness (map snd infos) = Ok fs
           /\ iteration_records itr (new_std u) fs (map snd infos) = Ok recs
           /\ lookup "Iteration" recs = Some (TInt (Z.of_nat itr))
           /\ lookup "NumTrajs" recs
              = Some (TInt (Z.of_nat (length infos)))).
Proof.
  split.
  - intros itr cur_std fs paths e. split.
    + destruct paths as [|p ps].
      * simpl. now intros [= <-].
      * destruct (iteration_records_ok itr cur_std fs (p :: ps))
          as (mx & mn & _ & _ & E); [discriminate|].
        rewrite E. discriminate.
    + intros (-> & ->). reflexivity.
  - intros n_best infos u itr Hu.
    destruct (update_inv _ _ _ Hu) as (fs & top & rest & m & Hf & _).
    assert (Hne : map snd infos <> []).
    { intros E. rewrite E in Hf. simpl in Hf. injection Hf as <-.
      destruct (update_best_inds _ _ _ Hu) as (fs' & Hf' & _).
      rewrite E in Hf'. simpl in Hf'. injection Hf' as <-.
      unfold update in Hu. rewrite E in Hu. simpl in Hu.
      destruct (Z.to_nat n_best); discriminate. }
    destruct (iteration_records_ok itr (new_std u) fs (map snd infos) Hne)
      as (mx & mn & _ & _ & E).
    exists fs. eexists. split; [exact Hf|]. split; [exact E|].
    split; [reflexivity|]. simpl. now rewrite length_map.
Qed.

Lemma records_after_update_witness :
  exists u fs recs,
    update 1 [([1; 2], ResultPath.mk [] None [Some 5])] = Ok u
    /\ iteration_records 4 (new_std u) fs
         (map snd [([1; 2], ResultPath.mk [] None [Some 5])]) = Ok recs
    /\ lookup "NumTrajs" recs = Some (TInt 1).
Proof.
  destruct (update_selects 1 [([1; 2], ResultPath.mk [] None [Some 5])])
    as (_ & Hu); [lia | discriminate | repeat constructor; discriminate |].
  destruct (proj2 records_after_update 1%Z _ _ 4%nat Hu)
    as (fs & recs & _ & Hr & _ & Hn).
  eexists. exists fs, recs. split; [exact Hu|]. split; [exact Hr | exact Hn].
Defined.

(** X24.  On a non-empty batch whose undiscounted returns are all numbers,
    the recorded MinReturn and MaxReturn are returns of the batch, and
    every return of the batch lies between them. *)
Theorem records_return_bounds (itr : nat) (cur_std : list R)
        (fs : list (option R)) (paths : list ResultPath.t) (rs : list R)
        (Hne : paths <> [])
        (Hnum : NpNan.numbers (map ResultPath.undiscounted_return paths)
                = Some rs) :
  exists recs mn mx,
    iteration_records itr cur_std fs paths = Ok recs
    /\ lookup "MinReturn" recs = Some (TFloat (Some mn))
    /\ lookup "MaxReturn" recs = Some (TFloat (Some mx))
    /\ In mn rs /\ In mx rs
    /\ Forall (fun r => mn <= r <= mx) rs.
Proof.
  destruct (iteration_records_ok itr cur_std fs paths Hne)
    as (mx0 & mn0 & Hmx & Hmn & E).
  assert (Ha : map ResultPath.undiscounted_return paths <> [])
    by (destruct paths; [congruence | discriminate]).
  unfold NpNan.max, NpNan.min in Hmx, Hmn.
  rewrite extremum_nonempty, Hnum in Hmx, Hmn by exact Ha.
  destruct rs as [|v rest].
  { apply numbers_all in Hnum. simpl in Hnum. congruence. }
  injection Hmx as <-. injection Hmn as <-.
  destruct (fold_max_spec rest v) as (Hmax_in & Hmax).
  destruct (fold_min_spec rest v) as (Hmin_in & Hmin).
  eexists. exists (fold_left Rmin rest v), (fold_left Rmax rest v).
  split; [exact E|].
  split; [reflexivity|]. split; [reflexivity|].
  split; [exact Hmin_in|]. split; [exact Hmax_in|].
  rewrite Forall_forall in Hmin, Hmax. apply Forall_forall.
  intros r Hr. split; [now apply Hmin | now apply Hmax].
Qed.

Lemma records_return_bounds_witness :
  exists recs mn mx,
    iteration_records 0 [1] [Some 1; Some 2]
      [ResultPath.mk [] (Some 3) [Some 1]; ResultPath.mk [] (Some 5) [Some 2]]
    = Ok recs
    /\ lookup "MinReturn" recs = Some (TFloat (Some mn))
    /\ lookup "MaxReturn" recs = Some (TFloat (Some mx))
    /\ mn <= 3 /\ 5 <= mx.
Proof.
  destruct (records_return_bounds 0 [1] [Some 1; Some 2]
              [ResultPath.mk [] (Some 3) [Some 1];
               ResultPath.mk [] (Some 5) [Some 2]] [3; 5])
    as (recs & mn & mx & E & Hmn & Hmx & _ & _ & Hb);
    [discriminate | reflexivity |].
  exists recs, mn, mx.
  split; [exact E|]. split; [exact Hmn|]. split; [exact Hmx|].
  inversion Hb as [|? ? H3 Hb']. inversion Hb' as [|? ? H5 _].
  split; [exact (proj1 H3) | exact (proj2 H5)].
Defined.

(** X25.  One nan among the undiscounted returns of the batch (a result
    built from no rollout) turns AverageReturn, StdReturn, MaxReturn and
    MinReturn into nan; the records are still produced. *)
Theorem records_nan_return (itr : nat) (cur_std : list R)
        (fs : list (option R)) (paths : list ResultPath.t)
        (Hnan : Exists (fun p => ResultPath.undiscounted_return p = None)
                       paths) :
  exists recs,
    iteration_records itr cur_std fs paths = Ok recs
    /\ lookup "AverageReturn" recs = Some (TFloat None)
    /\ lookup "StdReturn" recs = Some (TFloat None)
    /\ lookup "MaxReturn" recs = Some (TFloat None)
    /\ lookup "MinReturn" recs = Some (TFloat None).
Proof.
  assert (Hne : paths <> []) by (intros ->; inversion Hnan).
  assert (Hnum : NpNan.numbers (map ResultPath.undiscounted_return paths)
                 = None).
  { apply numbers_nan. apply Exists_exists in Hnan.
    destruct Hnan as (p & Hin & Hp). rewrite <- Hp.
    now apply in_map. }
  destruct (iteration_records_ok itr cur_std fs paths Hne)
    as (mx0 & mn0 & Hmx & Hmn & E).
  assert (Ha : map ResultPath.undiscounted_return paths <> [])
    by (destruct paths; [congruence | discriminate]).
  unfold NpNan.max, NpNan.min in Hmx, Hmn.
  rewrite extremum_nonempty, Hnum in Hmx, Hmn by exact Ha.
  injection Hmx as <-. injection Hmn as <-.
  eexists. split; [exact E|].
  unfold NpNan.mean, NpNan.std. rewrite Hnum.
  repeat split; reflexivity.
Qed.

Lemma records_nan_return_witness :
  exists recs,
    iteration_records 0 [1] [Some 1]
      [ResultPath.mk [] None [Some 1]] = Ok recs
    /\ lookup "MaxReturn" recs = Some (TFloat None).
Proof.
  destruct (records_nan_return 0 [1] [Some 1]
              [ResultPath.mk [] None [Some 1]])
    as (recs & E & _ & _ & Hmx & _); [now constructor|].
  exists recs. split; [exact E | exact Hmx].
Defined.

Lemma total_INR (f : Path.t -> nat) (l : list Path.t) :
  Spec.total (map (fun p => INR (f p)) l) = INR (list_sum (map f l)).
Proof.
  induction l as [|p l IH]; [reflexivity|].
  simpl. rewrite plus_INR. simpl in IH. now rewrite IH.
Qed.

Lemma flatten_paths_length (paths : list ResultPath.t) (n : nat) :
  Forall (fun p => length (ResultPath.full_paths p) = n) paths ->
  length (flatten_paths paths) = (n * length paths)%nat.
Proof.
  unfold flatten_paths. induction 1 as [|p paths Hp _ IH]; simpl; [lia|].
  rewrite length_app, IH, Hp. lia.
Qed.

(** X26.  The recorded AvgTrajLen is taken over the rollouts of all results
    chained together: it is nan exactly when the batch holds no rollout,
    and otherwise it is the total number of return entries divided by the
    number of rollouts; when every result carries n rollouts there are
    n times NumTrajs of them. *)
Theorem records_traj_len (itr : nat) (cur_std : list R) (fs : list (option R))
        (paths : list ResultPath.t) (recs : list (string * tab_val))
        (H : iteration_records itr cur_std fs paths = Ok recs) :
  exists v,
    lookup "AvgTrajLen" recs = Some (TFloat v)
    /\ (v = None <-> flatten_paths paths = [])
    /\ (forall avg, v = Some avg ->
          avg * INR (length (flatten_paths paths))
          = INR (list_sum (map (fun p => length (Path.returns p))
                               (flatten_paths paths))))
    /\ (forall n,
          Forall (fun p => length (ResultPath.full_paths p) = n) paths ->
          length (flatten_paths paths) = (n * length paths)%nat).
Proof.
  assert (Hne : paths <> []) by (intros ->; discriminate).
  destruct (iteration_records_ok itr cur_std fs paths Hne)
    as (mx0 & mn0 & _ & _ & E).
  rewrite E in H. injection H as <-.
  eexists. split; [reflexivity|].
  set (full := flatten_paths paths).
  split; [|split].
  - unfold Np.mean. destruct full; simpl; split; congruence.
  - intros avg Havg. unfold Np.mean in Havg.
    destruct (map _ full) as [|w ws] eqn:Em; [discriminate|].
    injection Havg as <-. rewrite <- Em.
    rewrite np_mean_of_spec. unfold Spec.mean.
    rewrite total_INR, length_map.
    assert (Hn : INR (length full) <> 0).
    { apply not_0_INR. destruct full; [discriminate | simpl; lia]. }
    field. exact Hn.
  - apply flatten_paths_length.
Qed.

Lemma records_traj_len_witness :
  exists recs v,
    iteration_records 0 [1] [Some 1]
      [ResultPath.mk [Path.mk [1; 1] [2; 1] 2] (Some 2) [Some 2; Some 1]]
    = Ok recs
    /\ lookup "AvgTrajLen" recs = Some (TFloat v).
Proof.
  destruct (iteration_records_ok 0 [1] [Some 1]
              [ResultPath.mk [Path.mk [1; 1] [2; 1] 2] (Some 2)
                             [Some 2; Some 1]])
    as (mx & mn & _ & _ & E); [discriminate|].
  destruct (records_traj_len _ _ _ _ _ E) as (v & Hv & _).
  eexists. exists v. split; [exact E | exact Hv].
Defined.
